(** * array_hash: a packed-record string hash table

    A shallow embedding of [src/src/array-hash.h] (class [stx::array_hash]
    and its iterator) and the properties its specification states, followed
    by further properties of that code and of the functions [indexof],
    [trim] and [compare] of its driver [src/unnamed/part_000].

    Conventions of the embedding.
    - [int] is a 32-bit and [length_type] a 16-bit two's-complement integer,
      [size_t] a 64-bit unsigned one.  Conversions between them, and the
      results of [int] arithmetic, wrap around; every wrap is written out
      ([int32], [int16], [size_t]).
    - [char] is signed; a [length_type] is stored low byte first.
    - A heap buffer is a list of cells; a cell is [None] until it has been
      written, as the memory [new char[n]] returns is indeterminate.
      [new] fails for a request above PTRDIFF_MAX and succeeds otherwise.
    - A [const char *] argument is the list of the bytes of the character
      array before its final terminator; the C string it denotes ends at
      its first zero byte.
    - A pointer into a slot buffer is an offset into that buffer.
    - An access outside a buffer or outside the slot array, and a read of
      an indeterminate cell, end the computation with a [Fault]; a failed
      allocation ends it with [BadAlloc].
    - Loops whose length the data decides run on fuel, which the callers
      set from the size of the data walked; [Diverges] is the outcome of a
      loop that used it up.
    - A [std::string] is the list of its bytes and a [std::set] of strings
      the list of its elements in iteration order; appending a character
      to a [std::string] succeeds. *)

From Stdlib Require Import ZArith List Lia.
From Stdlib Require Import Strings.Byte.
From stdpp Require Import base list.

Local Open Scope Z_scope.

#[global] Instance byte_eq_decision : EqDecision byte := Byte.byte_eq_dec.

(** ** Outcomes of a computation *)

Inductive fault : Type :=
| SlotIndexOutOfRange (i : Z)   (* data[i] with i outside [0, SLOT_COUNT) *)
| BufferOutOfRange              (* access outside a slot buffer *)
| IndeterminateRead             (* read of a cell never written *)
| StringOutOfRange              (* read past the terminator of an argument *)
| NullDereference.

Inductive outcome (A : Type) : Type :=
| Ok (a : A)
| Fault (f : fault)
| BadAlloc
| Diverges.

Arguments Ok {A} a.
Arguments Fault {A} f.
Arguments BadAlloc {A}.
Arguments Diverges {A}.

#[global] Instance outcome_bind : MBind outcome := fun A B k m =>
  match m with
  | Ok a => k a
  | Fault f => Fault f
  | BadAlloc => BadAlloc
  | Diverges => Diverges
  end.

(** ** Machine integers *)

Definition wrap_signed (bits z : Z) : Z :=
  (z + 2 ^ (bits - 1)) mod 2 ^ bits - 2 ^ (bits - 1).

Definition int16 (z : Z) : Z := wrap_signed 16 z.
Definition int32 (z : Z) : Z := wrap_signed 32 z.
Definition size_t (z : Z) : Z := z mod 2 ^ 64.

Definition sizeof_length_type : Z := 2.

Definition byte_to_Z (b : byte) : Z := Z.of_N (Byte.to_N b).

Definition byte_of_Z (z : Z) : byte :=
  match Byte.of_N (Z.to_N (z mod 256)) with
  | Some b => b
  | None => x00
  end.

(** The value of a [char] holding byte [b]. *)
Definition schar (b : byte) : Z := wrap_signed 8 (byte_to_Z b).

(** ** Memory *)

Abbreviation buffer := (list (option byte)).

(** Largest request [operator new[]] can satisfy (PTRDIFF_MAX). *)
Definition MAX_ALLOC : Z := 2 ^ 63 - 1.

(** [new char[n]], [n] already converted to [size_t]. *)
Definition new_char (n : Z) : outcome buffer :=
  if n <=? MAX_ALLOC then Ok (replicate (Z.to_nat n) None) else BadAlloc.

Definition load8 (buf : buffer) (p : Z) : outcome byte :=
  if p <? 0 then Fault BufferOutOfRange
  else match buf !! Z.to_nat p with
       | Some (Some b) => Ok b
       | Some None => Fault IndeterminateRead
       | None => Fault BufferOutOfRange
       end.

Definition store8 (buf : buffer) (p : Z) (b : byte) : outcome buffer :=
  if (0 <=? p) && (p <? Z.of_nat (length buf))
  then Ok (<[Z.to_nat p := Some b]> buf)
  else Fault BufferOutOfRange.

(** [*((length_type * )p)] *)
Definition load16 (buf : buffer) (p : Z) : outcome Z :=
  b0 ← load8 buf p;
  b1 ← load8 buf (p + 1);
  Ok (int16 (byte_to_Z b0 + 256 * byte_to_Z b1)).

(** [memcpy(p, &w, sizeof(length_type))] *)
Definition store16 (buf : buffer) (p : Z) (w : Z) : outcome buffer :=
  buf ← store8 buf p (byte_of_Z w);
  store8 buf (p + 1) (byte_of_Z (w / 256)).

(** [memcpy(dst, src, n)] between the starts of two buffers, [n] a
    [size_t]. *)
Definition memcpy (dst src : buffer) (n : Z) : outcome buffer :=
  if (n <=? Z.of_nat (length src)) && (n <=? Z.of_nat (length dst))
  then Ok (take (Z.to_nat n) src ++ drop (Z.to_nat n) dst)
  else Fault BufferOutOfRange.

(** ** C strings *)

(** The bytes of the C string held by a character array. *)
Fixpoint c_str (str : list byte) : list byte :=
  match str with
  | [] => []
  | c :: str' => if Byte.eqb c x00 then [] else c :: c_str str'
  end.

Definition strlen (str : list byte) : Z := Z.of_nat (length (c_str str)).

(** [str[i]] *)
Definition char_at (str : list byte) (i : Z) : outcome byte :=
  if i <? 0 then Fault StringOutOfRange
  else match str !! Z.to_nat i with
       | Some c => Ok c
       | None => if i =? Z.of_nat (length str) then Ok x00
                 else Fault StringOutOfRange
       end.

(** [strcpy(buf + p, str)] *)
Fixpoint strcpy (buf : buffer) (p : Z) (str : list byte) : outcome buffer :=
  match str with
  | [] => store8 buf p x00
  | c :: str' =>
      buf ← store8 buf p c;
      if Byte.eqb c x00 then Ok buf else strcpy buf (p + 1) str'
  end.

(** [strcmp(str, buf + p)]: the sign of the first difference. *)
Fixpoint strcmp (str : list byte) (buf : buffer) (p : Z) : outcome Z :=
  c2 ← load8 buf p;
  let c1 := match str with [] => x00 | c :: _ => c end in
  if Byte.eqb c1 c2 then
    match str with
    | [] => Ok 0
    | c :: str' => if Byte.eqb c x00 then Ok 0 else strcmp str' buf (p + 1)
    end
  else Ok (if byte_to_Z c1 <? byte_to_Z c2 then -1 else 1).

(** ** The table *)

Definition SLOT_COUNT : Z := 2048.

(** [data] is the slot array: [None] is a NULL slot pointer, [Some buf] a
    pointer to the first cell of the heap buffer [buf] owned by the slot. *)
Record array_hash : Type := {
  data : list (option buffer);
  _size : Z
}.

(** [array_hash::array_hash()], lines 74-80. *)
Definition array_hash_new : array_hash :=
  {| data := replicate (Z.to_nat SLOT_COUNT) None; _size := 0 |}.

(** [data[i]] for an [int] index [i]. *)
Definition slot_at (data : list (option buffer)) (i : Z)
  : outcome (option buffer) :=
  if (0 <=? i) && (i <? SLOT_COUNT) then
    match data !! Z.to_nat i with
    | Some s => Ok s
    | None => Fault (SlotIndexOutOfRange i)
    end
  else Fault (SlotIndexOutOfRange i).

(** [array_hash::hash], lines 237-244: the loop, for [i] running over [n]
    indices from [i]. *)
Fixpoint hash_loop (n : nat) (str : list byte) (i : Z) (h : Z) : outcome Z :=
  match n with
  | O => Ok h
  | S n' =>
      c ← char_at str i;
      hash_loop n' str (i + 1)
        (Z.lxor h (int32 (int32 (int32 (Z.shiftl h 5) + Z.shiftr h 2) + schar c)))
  end.

Definition hash (str : list byte) (len : Z) (seed : Z) : outcome Z :=
  h ← hash_loop (Z.to_nat len) str 0 seed;
  Ok (Z.land h (SLOT_COUNT - 1)).

(** The [while (w != 0)] loop of [array_hash::search], lines 116-130; [w] is
    the length prefix last read at [p]. *)
Fixpoint search_loop (fuel : nat) (str : list byte) (len : Z)
    (buf : buffer) (p : Z) (size : Z) (w : Z) : outcome Z :=
  if w =? 0 then Ok size
  else match fuel with
       | O => Diverges
       | S fuel' =>
           let p := p + sizeof_length_type in
           c ← (if w =? len then strcmp str buf p else Ok 1);
           if (w =? len) && (c =? 0) then Ok 0
           else
             let size := int32 (size_t (size_t size + size_t (size_t w + sizeof_length_type))) in
             let p := p + w in
             w ← load16 buf p;
             search_loop fuel' str len buf p size w
       end.

(** The part of [array_hash::search] after the slot pointer is known, lines
    114-130.  The walk gets one round of fuel per cell of the buffer. *)
Definition search_slot (str : list byte) (len : Z) (buf : buffer) : outcome Z :=
  w ← load16 buf 0;
  search_loop (length buf) str len buf 0 0 w.

(** [array_hash::search(str, length, p)], lines 104-131; [p] is [None] for
    NULL. *)
Definition search (t : array_hash) (str : list byte) (len : Z)
    (p : option buffer) : outcome Z :=
  match p with
  | Some buf => search_slot str len buf
  | None =>
      slot ← hash str (int16 (len - 1)) 23;
      p ← slot_at (data t) slot;
      match p with
      | None => Ok (-1)
      | Some buf => search_slot str len buf
      end
  end.

(** The tail of [array_hash::insert], lines 167-174, with the assignment to
    [data[slot]]; [buf] is the new buffer of the slot and [p] the offset the
    record goes to. *)
Definition write_record (t : array_hash) (slot : Z) (buf : buffer) (p : Z)
    (str : list byte) (len : Z) : outcome array_hash :=
  buf ← store16 buf p len;
  let p := p + sizeof_length_type in
  buf ← strcpy buf p str;
  let p := p + len in
  buf ← store16 buf p 0;
  Ok {| data := <[Z.to_nat slot := Some buf]> (data t);
        _size := size_t (_size t + 1) |}.

(** [array_hash::insert(str, length)], lines 141-175. *)
Definition insert (t : array_hash) (str : list byte) (len : Z)
  : outcome array_hash :=
  let len := if len =? 0 then int16 (strlen str) else len in
  let len := int16 (len + 1) in
  slot ← hash str (int16 (len - 1)) 23;
  p ← slot_at (data t) slot;
  match p with
  | Some old =>
      size ← search t str len (Some old);
      if size =? 0 then Ok t
      else
        buf ← new_char (size_t (size_t (size_t size + 2 * sizeof_length_type) + size_t len));
        buf ← memcpy buf old (size_t size);
        write_record t slot buf size str len
  | None =>
      let size := int32 (size_t (size_t len + 2 * sizeof_length_type)) in
      buf ← new_char (size_t size);
      write_record t slot buf 0 str len
  end.

(** [array_hash::find(str, length)], lines 187-193. *)
Definition find (t : array_hash) (str : list byte) (len : Z) : outcome bool :=
  let len := if len =? 0 then int16 (strlen str) else len in
  let len := int16 (len + 1) in
  r ← search t str len None;
  Ok (r =? 0).

(** [array_hash::size()], lines 198-200. *)
Definition size (t : array_hash) : Z := _size t.

(** ** The iterator *)

(** [slot] is the slot index; [p] is NULL ([None]) or the offset of the
    cursor inside the buffer of that slot.  The member [data] of the C++
    iterator is the table the operations below are applied to. *)
Record iterator : Type := {
  slot : Z;
  p : option Z
}.

(** [while (result.data[result.slot] == NULL) ++result.slot;] *)
Fixpoint begin_loop (fuel : nat) (d : list (option buffer)) (slot : Z)
  : outcome Z :=
  match fuel with
  | O => Diverges
  | S fuel' =>
      s ← slot_at d slot;
      match s with
      | None => begin_loop fuel' d (int32 (slot + 1))
      | Some _ => Ok slot
      end
  end.

(** [array_hash::begin()], lines 205-215. *)
Definition begin (t : array_hash) : outcome iterator :=
  slot ← begin_loop (S (Z.to_nat SLOT_COUNT)) (data t) 0;
  s ← slot_at (data t) slot;
  Ok {| slot := slot; p := match s with Some _ => Some 0 | None => None end |}.

(** [array_hash::end()], lines 220-226. *)
Definition end_ (t : array_hash) : iterator :=
  {| slot := SLOT_COUNT; p := None |}.

(** [while (data[slot] == NULL && slot < SLOT_COUNT) ++slot;] *)
Fixpoint incr_loop (fuel : nat) (d : list (option buffer)) (slot : Z)
  : outcome Z :=
  match fuel with
  | O => Diverges
  | S fuel' =>
      s ← slot_at d slot;
      match s with
      | None => if slot <? SLOT_COUNT then incr_loop fuel' d (int32 (slot + 1))
                else Ok slot
      | Some _ => Ok slot
      end
  end.

(** The buffer a non-NULL cursor points into.  This is not an access to the
    slot array: the C++ iterator holds the address of the cell itself. *)
Definition pointee (t : array_hash) (it : iterator) : outcome buffer :=
  match data t !! Z.to_nat (slot it) with
  | Some (Some buf) => Ok buf
  | _ => Fault NullDereference
  end.

(** [array_hash::iterator::operator++()], lines 269-285. *)
Definition iterator_incr (t : array_hash) (it : iterator) : outcome iterator :=
  match p it with
  | None => Fault NullDereference
  | Some q =>
      buf ← pointee t it;
      w ← load16 buf q;
      let q := q + (w + sizeof_length_type) in
      w ← load16 buf q;
      if w =? 0 then
        let slot := int32 (slot it + 1) in
        slot ← incr_loop (S (Z.to_nat SLOT_COUNT)) (data t) slot;
        if slot =? SLOT_COUNT then Ok {| slot := slot; p := None |}
        else
          s ← slot_at (data t) slot;
          Ok {| slot := slot;
                p := match s with Some _ => Some 0 | None => None end |}
      else Ok {| slot := slot it; p := Some q |}
  end.

(** The C string starting at offset [q] of [buf], read cell by cell. *)
Fixpoint read_c_str (fuel : nat) (buf : buffer) (q : Z) : outcome (list byte) :=
  match fuel with
  | O => Fault BufferOutOfRange
  | S fuel' =>
      c ← load8 buf q;
      if Byte.eqb c x00 then Ok []
      else s ← read_c_str fuel' buf (q + 1); Ok (c :: s)
  end.

(** [array_hash::iterator::operator*()], lines 292-298, followed by a read
    of the string the returned pointer designates; [None] is the NULL
    result. *)
Definition iterator_deref (t : array_hash) (it : iterator)
  : outcome (option (list byte)) :=
  match p it with
  | None => Ok None
  | Some q =>
      buf ← pointee t it;
      s ← read_c_str (S (length buf)) buf (q + sizeof_length_type);
      Ok (Some s)
  end.

(** [operator==], lines 303-305, on two iterators of the same table. *)
Definition iterator_eqb (a b : iterator) : bool :=
  (slot a =? slot b) &&
  match p a, p b with
  | None, None => true
  | Some x, Some y => x =? y
  | _, _ => false
  end.

(** How a computation ended, its value forgotten. *)
Definition ending {A : Type} (m : outcome A) : outcome unit :=
  _ ← m; Ok tt.

(** [for (it = t.begin(); it != t.end(); ++it) yield *it;]
    The result is the sequence of values yielded and the way the loop
    ended: [Ok tt] when the cursor reached [end()]. *)
Fixpoint traverse_loop (fuel : nat) (t : array_hash) (it : iterator)
  : list (option (list byte)) * outcome unit :=
  if iterator_eqb it (end_ t) then ([], Ok tt)
  else match fuel with
       | O => ([], Diverges)
       | S fuel' =>
           match iterator_deref t it with
           | Ok s =>
               match iterator_incr t it with
               | Ok it' =>
                   let '(ys, r) := traverse_loop fuel' t it' in (s :: ys, r)
               | e => ([s], ending e)
               end
           | e => ([], ending e)
           end
       end.

Definition traverse (fuel : nat) (t : array_hash)
  : list (option (list byte)) * outcome unit :=
  match begin t with
  | Ok it => traverse_loop fuel t it
  | e => ([], ending e)
  end.

(** ** Runs of operations *)

(** [insert(s)] with the default length argument, for each [s] in turn. *)
Fixpoint insert_all (t : array_hash) (l : list (list byte))
  : outcome array_hash :=
  match l with
  | [] => Ok t
  | s :: l' => t' ← insert t s 0; insert_all t' l'
  end.

(** A run of [insert] and [find] calls; [find] leaves the table as it is. *)
Inductive op : Type :=
| OpInsert (s : list byte)
| OpFind (s : list byte).

Fixpoint run (t : array_hash) (ops : list op) : outcome array_hash :=
  match ops with
  | [] => Ok t
  | OpInsert s :: ops' => t' ← insert t s 0; run t' ops'
  | OpFind s :: ops' => _ ← find t s 0; run t ops'
  end.

Definition inserted (ops : list op) : list (list byte) :=
  omap (fun o => match o with OpInsert s => Some s | OpFind _ => None end) ops.

(** ** Records, as the code lays them out *)

(** A string without embedded zero byte. *)
Definition nul_free (s : list byte) : bool :=
  forallb (fun c => negb (Byte.eqb c x00)) s.

(** Largest value of [length_type]. *)
Definition LENGTH_MAX : Z := 32767.

(** A string whose length including the terminator fits [length_type]. *)
Definition representable (s : list byte) : bool :=
  nul_free s && (Z.of_nat (length s) + 1 <=? LENGTH_MAX).

(** A record read back from a slot buffer: its length prefix and the bytes
    that follow the prefix, up to the next prefix. *)
Record record : Type := {
  rec_length : Z;
  rec_bytes : list byte
}.

(** [n] consecutive cells of [buf] from offset [q]. *)
Fixpoint read_bytes (n : nat) (buf : buffer) (q : Z) : outcome (list byte) :=
  match n with
  | O => Ok []
  | S n' => c ← load8 buf q; s ← read_bytes n' buf (q + 1); Ok (c :: s)
  end.

(** The record walk shared by [search] and the iterator: read a prefix,
    stop at the zero sentinel, otherwise step over prefix and payload. *)
Fixpoint records_from (fuel : nat) (buf : buffer) (q : Z)
  : outcome (list record) :=
  w ← load16 buf q;
  if w =? 0 then Ok []
  else match fuel with
       | O => Diverges
       | S fuel' =>
           s ← read_bytes (Z.to_nat w) buf (q + sizeof_length_type);
           rest ← records_from fuel' buf (q + sizeof_length_type + w);
           Ok ({| rec_length := w; rec_bytes := s |} :: rest)
       end.

(** The records of a slot; a NULL slot has none. *)
Definition slot_records (s : option buffer) : outcome (list record) :=
  match s with
  | None => Ok []
  | Some buf => records_from (length buf) buf 0
  end.

(** The string a record holds. *)
Definition rec_string (r : record) : list byte := c_str (rec_bytes r).

(** Bytes taken by records: prefixes and payloads, sentinel excluded. *)
Definition records_size (rs : list record) : Z :=
  fold_right (fun r acc => sizeof_length_type + rec_length r + acc) 0 rs.

(** The records of every slot, in slot order. *)
Fixpoint table_records (d : list (option buffer)) : outcome (list record) :=
  match d with
  | [] => Ok []
  | s :: d' => rs ← slot_records s; rest ← table_records d'; Ok (rs ++ rest)
  end.

(** The bytes taken by the records of slot [i]. *)
Definition slot_bytes (t : array_hash) (i : Z) : outcome Z :=
  match data t !! Z.to_nat i with
  | Some s => rs ← slot_records s; Ok (records_size rs)
  | None => Fault (SlotIndexOutOfRange i)
  end.

(** ** The slot index, in the words of the specification *)

Definition hash_step (h : Z) (b : byte) : Z :=
  Z.lxor h (int32 (Z.shiftl h 5 + Z.shiftr h 2 + schar b)).

Definition hash_value (s : list byte) : Z := fold_left hash_step s 23.

Definition slot_index (s : list byte) : Z :=
  Z.land (hash_value s) (SLOT_COUNT - 1).

(** ** The layout of a slot, as a function of its strings *)

Definition enc16 (w : Z) : list byte := [byte_of_Z w; byte_of_Z (w / 256)].

Definition encode_record (s : list byte) : list byte :=
  enc16 (Z.of_nat (length s) + 1) ++ s ++ [x00].

Definition encode_records (recs : list (list byte)) : list byte :=
  concat (map encode_record recs).

Definition encode_slot (recs : list (list byte)) : option buffer :=
  match recs with
  | [] => None
  | _ => Some (Some <$> (encode_records recs ++ [x00; x00]))
  end.

(** The table whose slot [i] holds the strings [M !! i], in order. *)
Definition encode_table (M : list (list (list byte))) : array_hash :=
  {| data := encode_slot <$> M; _size := Z.of_nat (length (concat M)) |}.

Definition record_of (s : list byte) : record :=
  {| rec_length := Z.of_nat (length s) + 1; rec_bytes := s ++ [x00] |}.

(** [bs] written over the cells of [buf] from offset [q]. *)
Definition write_bytes (buf : buffer) (q : nat) (bs : list byte) : buffer :=
  take q buf ++ (Some <$> bs) ++ drop (q + length bs)%nat buf.

(** The strings of the table with no insertions. *)
Definition empty_strings : list (list (list byte)) :=
  replicate (Z.to_nat SLOT_COUNT) [].

(** The slot limit under which [insert] can still allocate. *)
Definition SLOT_LIMIT : Z := 2 ^ 31.

(** The invariant of the tables that runs of [insert] produce. *)
Record table_inv (M : list (list (list byte))) : Prop := {
  inv_length : length M = Z.to_nat SLOT_COUNT;
  inv_repr : forall i recs s, M !! i = Some recs -> s ∈ recs ->
             representable s = true;
  inv_slot : forall i recs s, M !! i = Some recs -> s ∈ recs ->
             slot_index s = Z.of_nat i;
  inv_nodup : NoDup (concat M);
  inv_bytes : forall i recs, M !! i = Some recs ->
              Z.of_nat (length (encode_records recs)) < SLOT_LIMIT + 32770
}.

(** Whether the walk meets a record of length [len] holding [s]. *)
Definition found_in (s : list byte) (len : Z) (recs : list (list byte)) : bool :=
  existsb (fun r => (Z.of_nat (length r) + 1 =? len) && bool_decide (s = r)) recs.

(** Where a scan for the next non-NULL slot ends, in terms of the strings
    left from slot [k] on. *)
Definition scan_result (M : list (list (list byte))) (k : nat) (r : outcome Z)
  : Prop :=
  (concat (drop k M) = [] /\ r = Fault (SlotIndexOutOfRange SLOT_COUNT)) \/
  (exists (j : nat) x recs,
     r = Ok (Z.of_nat j) /\ (j < Z.to_nat SLOT_COUNT)%nat /\
     M !! j = Some (x :: recs) /\
     concat (drop k M) = (x :: recs) ++ concat (drop (S j) M)).

(** ** Example inputs *)

Definition cat : list byte := [x63; x61; x74].
Definition car : list byte := [x63; x61; x72].
Definition dog : list byte := [x64; x6f; x67].
Definition bird : list byte := [x62; x69; x72; x64].

(** The scenario of the specification: "cat", "car", "dog", "cat". *)
Definition example_strings : list (list byte) := [cat; car; dog; cat].

(** [n] letters "a". *)
Definition long_string (n : Z) : list byte := replicate (Z.to_nat n) x61.

(** ** The order of the records *)

(** [acc] followed by the strings of [l] it does not hold yet, each at its
    first occurrence. *)
Fixpoint dedup_onto (acc l : list (list byte)) : list (list byte) :=
  match l with
  | [] => acc
  | s :: l' =>
      dedup_onto (if bool_decide (s ∈ acc) then acc else acc ++ [s]) l'
  end.

(** The distinct strings of [l], in the order of their first occurrence. *)
Definition first_occurrences (l : list (list byte)) : list (list byte) :=
  dedup_onto [] l.

(** The strings of [l] that hash to slot [i], in the order of [l]. *)
Definition bucket (i : nat) (l : list (list byte)) : list (list byte) :=
  filter (fun s => slot_index s = Z.of_nat i) l.

Definition buckets (l : list (list byte)) : list (list (list byte)) :=
  (fun i => bucket i l) <$> seq 0 (Z.to_nat SLOT_COUNT).

(** Slot by slot, and inside a slot by first insertion. *)
Definition iteration_order (l : list (list byte)) : list (list byte) :=
  concat (buckets (first_occurrences l)).

(** Two strings of slot 101. *)
Definition ba : list byte := [x62; x61].
Definition sw : list byte := [x73; x77].

(** ** The driver ([src/unnamed/part_000]) *)

(** [indexof(ch)]: the position of [ch] in the 27-letter alphabet of the
    trie, or -1.  [ch - 'a'] is computed in [int]. *)
Definition indexof (ch : byte) : Z :=
  if (schar ch - 97 <? 26) && (schar ch - 97 >=? 0) then schar ch - 97
  else if schar ch =? 39 then 26
  else -1.

(** [tolower] of the "C" locale.  The C standard defines it on the values
    of [unsigned char] and on [EOF] (-1) only; elsewhere the call has no
    defined result ([None]). *)
Definition tolower (c : Z) : option Z :=
  if c =? -1 then Some (-1)
  else if (0 <=? c) && (c <=? 255) then
    Some (if (65 <=? c) && (c <=? 90) then c + 32 else c)
  else None.

(** The loop of [trim(s)] over the characters left, [result] being the
    string built so far; [s[i] = tolower(s[i])] narrows the [int] to
    [char]. *)
Fixpoint trim_loop (s result : list byte) : option (list byte) :=
  match s with
  | [] => Some result
  | c :: s' =>
      c' ← tolower (schar c);
      let si := byte_of_Z c' in
      trim_loop s' (if negb (indexof si =? -1) then result ++ [si] else result)
  end.

Definition trim (s : list byte) : option (list byte) := trim_loop s [].

(** [compare(a, s)] with [A = array_hash]; [s] lists the strings of the
    [std::set] in iteration order, [rest] those the loop has not visited.
    [s.size()] is a [size_t]. *)
Fixpoint compare_from (a : array_hash) (s rest : list (list byte))
  : outcome bool :=
  match rest with
  | [] => Ok (size_t (Z.of_nat (length s)) =? size a)
  | x :: rest' =>
      b ← find a x 0;
      if Bool.eqb b false then Ok false else compare_from a s rest'
  end.

Definition compare (a : array_hash) (s : list (list byte)) : outcome bool :=
  compare_from a s s.

(** The characters [indexof] accepts: ['a'..'z'] and the apostrophe. *)
Definition letter (c : byte) : Prop :=
  97 <= byte_to_Z c <= 122 \/ c = x27.

(** The bytes of "Don't PANIC". *)
Definition dont_panic : list byte :=
  [x44; x6f; x6e; x27; x74; x20; x50; x41; x4e; x49; x43].

(** A string whose running hash is negative. *)
Definition abcdefg : list byte := [x61; x62; x63; x64; x65; x66; x67].

(** * Proofs *)

(** ** Machine integers *)

Ltac unwrap :=
  unfold int16, int32, size_t, wrap_signed, sizeof_length_type, LENGTH_MAX,
    SLOT_LIMIT, MAX_ALLOC in *;
  change (2 ^ (8 - 1)) with 128 in *; change (2 ^ 8) with 256 in *;
  change (2 ^ (16 - 1)) with 32768 in *; change (2 ^ 16) with 65536 in *;
  change (2 ^ (32 - 1)) with 2147483648 in *;
  change (2 ^ 32) with 4294967296 in *;
  change (2 ^ 31) with 2147483648 in *;
  change (2 ^ 63) with 9223372036854775808 in *;
  change (2 ^ 64) with 18446744073709551616 in *.

Ltac wrap_lia := unwrap; Z.to_euclidean_division_equations; lia.

Lemma int16_succ_pred z : int16 (int16 (int16 z + 1) - 1) = int16 z.
Proof. wrap_lia. Qed.

(** ** Bytes *)

Lemma byte_to_of_Z z : byte_to_Z (byte_of_Z z) = z mod 256.
Proof.
  unfold byte_to_Z, byte_of_Z.
  pose proof (Z.mod_pos_bound z 256 ltac:(lia)) as Hr.
  destruct (Byte.of_N (Z.to_N (z mod 256))) as [b|] eqn:E.
  - apply Byte.to_of_N in E. lia.
  - apply Byte.of_N_None_iff in E. lia.
Qed.

Lemma byte_eqb_eq (a b : byte) : Byte.eqb a b = true <-> a = b.
Proof. apply Byte.byte_dec_bl || split; [apply Byte.byte_dec_bl | apply Byte.byte_dec_lb]. Qed.

Lemma byte_eqb_neq (a b : byte) : Byte.eqb a b = false <-> a <> b.
Proof.
  rewrite <- byte_eqb_eq. destruct (Byte.eqb a b); split; congruence.
Qed.

Lemma enc16_decode w :
  -32768 <= w < 32768 ->
  int16 (byte_to_Z (byte_of_Z w) + 256 * byte_to_Z (byte_of_Z (w / 256))) = w.
Proof. intros Hw. rewrite !byte_to_of_Z. wrap_lia. Qed.

Lemma nul_free_cons c s :
  nul_free (c :: s) = true <-> c <> x00 /\ nul_free s = true.
Proof.
  unfold nul_free. simpl. rewrite andb_true_iff, negb_true_iff, byte_eqb_neq.
  reflexivity.
Qed.

Lemma nul_free_c_str s : nul_free s = true -> c_str s = s.
Proof.
  induction s as [|c s IH]; [reflexivity|].
  rewrite nul_free_cons. intros [Hc Hs]. simpl.
  apply byte_eqb_neq in Hc. rewrite Hc, IH; auto.
Qed.

Lemma nul_free_strlen s : nul_free s = true -> strlen s = Z.of_nat (length s).
Proof. intros H. unfold strlen. rewrite nul_free_c_str; auto. Qed.

Lemma c_str_app_nul s post : nul_free s = true -> c_str (s ++ x00 :: post) = s.
Proof.
  induction s as [|c s IH]; [reflexivity|].
  rewrite nul_free_cons. intros [Hc Hs]. simpl.
  apply byte_eqb_neq in Hc. rewrite Hc, IH; auto.
Qed.

Lemma representable_spec s :
  representable s = true <->
  nul_free s = true /\ Z.of_nat (length s) <= 32766.
Proof.
  unfold representable, LENGTH_MAX. rewrite andb_true_iff, Z.leb_le. intuition lia.
Qed.

(** ** Cells *)

Lemma load8_enc (bs : list byte) (i : nat) (b : byte) :
  bs !! i = Some b -> load8 (Some <$> bs) (Z.of_nat i) = Ok b.
Proof.
  intros H. unfold load8.
  destruct (Z.ltb_spec (Z.of_nat i) 0); [lia|].
  rewrite Nat2Z.id. rewrite list_lookup_fmap, H. reflexivity.
Qed.

Lemma load8_mid (pre post : list byte) (b : byte) q :
  q = Z.of_nat (length pre) ->
  load8 (Some <$> (pre ++ b :: post)) q = Ok b.
Proof.
  intros ->. apply load8_enc. rewrite lookup_app_r by lia.
  rewrite Nat.sub_diag. reflexivity.
Qed.

Lemma load16_mid (pre post : list byte) w q :
  q = Z.of_nat (length pre) -> -32768 <= w < 32768 ->
  load16 (Some <$> (pre ++ enc16 w ++ post)) q = Ok w.
Proof.
  intros -> Hw. unfold load16, enc16. simpl.
  rewrite (load8_mid pre _ _ (Z.of_nat (length pre))) by reflexivity. simpl.
  replace (pre ++ byte_of_Z w :: byte_of_Z (w / 256) :: post)
    with ((pre ++ [byte_of_Z w]) ++ byte_of_Z (w / 256) :: post)
    by (rewrite <- app_assoc; reflexivity).
  rewrite load8_mid by (rewrite length_app; simpl; lia). simpl.
  rewrite enc16_decode; auto.
Qed.

(** ** C strings in a buffer *)

Lemma strcmp_mid s : forall r pre post q,
  q = Z.of_nat (length pre) -> nul_free s = true -> nul_free r = true ->
  exists c, strcmp s (Some <$> (pre ++ r ++ x00 :: post)) q = Ok c /\
            (c = 0 <-> s = r).
Proof.
  induction s as [|a s IH]; intros r pre post q -> Hs Hr.
  - destruct r as [|c r]; simpl.
    + rewrite load8_mid by reflexivity. simpl. exists 0. split; auto.
      tauto.
    + apply nul_free_cons in Hr as [Hc Hr].
      rewrite load8_mid by reflexivity. simpl.
      assert (Byte.eqb x00 c = false) as -> by (apply byte_eqb_neq; congruence).
      eexists; split; [reflexivity|].
      split; [destruct (_ <? _); lia | discriminate].
  - apply nul_free_cons in Hs as [Ha Hs].
    destruct r as [|c r]; simpl.
    + rewrite load8_mid by reflexivity. simpl.
      assert (Byte.eqb a x00 = false) as -> by (apply byte_eqb_neq; congruence).
      eexists; split; [reflexivity|].
      split; [destruct (_ <? _); lia | discriminate].
    + apply nul_free_cons in Hr as [Hc Hr].
      rewrite load8_mid by reflexivity. simpl.
      destruct (Byte.eqb a c) eqn:E.
      * apply byte_eqb_eq in E as ->.
        assert (Byte.eqb c x00 = false) as -> by (apply byte_eqb_neq; congruence).
        destruct (IH r (pre ++ [c]) post (Z.of_nat (length pre) + 1))
          as (k & Hk & Hiff); auto.
        { rewrite length_app. simpl. lia. }
        rewrite <- app_assoc in Hk. simpl in Hk.
        exists k. split; [exact Hk|].
        rewrite Hiff. split; [congruence | intros [=]; auto].
      * apply byte_eqb_neq in E.
        eexists; split; [reflexivity|].
        split; [destruct (_ <? _); lia | congruence].
Qed.

(** ** The hash function *)

Lemma hash_step_eq h c :
  Z.lxor h (int32 (int32 (int32 (Z.shiftl h 5) + Z.shiftr h 2) + schar c))
  = hash_step h c.
Proof.
  unfold hash_step. f_equal.
  generalize (Z.shiftl h 5), (Z.shiftr h 2), (schar c). intros. wrap_lia.
Qed.

Lemma char_at_lookup (s : list byte) (i : nat) c :
  s !! i = Some c -> char_at s (Z.of_nat i) = Ok c.
Proof.
  intros H. unfold char_at.
  destruct (Z.ltb_spec (Z.of_nat i) 0); [lia|].
  rewrite Nat2Z.id, H. reflexivity.
Qed.

Lemma hash_loop_prefix n : forall (s : list byte) (i : nat) h,
  (i + n <= length s)%nat ->
  hash_loop n s (Z.of_nat i) h
  = Ok (fold_left hash_step (take n (drop i s)) h).
Proof.
  induction n as [|n IH]; intros s i h Hn; [reflexivity|].
  destruct (lookup_lt_is_Some_2 s i ltac:(lia)) as [c Hc].
  simpl. rewrite (char_at_lookup _ _ _ Hc). simpl.
  rewrite hash_step_eq.
  replace (Z.of_nat i + 1) with (Z.of_nat (S i)) by lia.
  rewrite IH by lia.
  rewrite (drop_S _ _ _ Hc). reflexivity.
Qed.

Lemma land_slot_range h : 0 <= Z.land h (SLOT_COUNT - 1) < SLOT_COUNT.
Proof.
  change (SLOT_COUNT - 1) with (Z.ones 11). rewrite Z.land_ones by lia.
  change SLOT_COUNT with (2 ^ 11). apply Z.mod_pos_bound. lia.
Qed.

Lemma slot_index_range s : 0 <= slot_index s < SLOT_COUNT.
Proof. apply land_slot_range. Qed.

(** Hashing any number of leading bytes of the argument is defined and
    lands in the slot array. *)
Lemma hash_prefix (s : list byte) n :
  n <= Z.of_nat (length s) ->
  hash s n 23
  = Ok (Z.land (fold_left hash_step (take (Z.to_nat n) s) 23) (SLOT_COUNT - 1)).
Proof.
  intros Hn. unfold hash.
  rewrite (hash_loop_prefix _ s 0 23) by (simpl; lia). reflexivity.
Qed.

Lemma hash_whole (s : list byte) :
  hash s (Z.of_nat (length s)) 23 = Ok (slot_index s).
Proof.
  rewrite hash_prefix by lia. rewrite Nat2Z.id, firstn_all. reflexivity.
Qed.

(** ** The record walk of [search] *)

Lemma encode_records_cons r recs :
  encode_records (r :: recs) = encode_record r ++ encode_records recs.
Proof. reflexivity. Qed.

Lemma encode_records_app a b :
  encode_records (a ++ b) = encode_records a ++ encode_records b.
Proof. unfold encode_records. rewrite map_app, concat_app. reflexivity. Qed.

Lemma length_encode_record r :
  Z.of_nat (length (encode_record r)) = Z.of_nat (length r) + 3.
Proof. unfold encode_record, enc16. rewrite !length_app. simpl. lia. Qed.

Lemma length_encode_records_cons r recs :
  Z.of_nat (length (encode_records (r :: recs)))
  = Z.of_nat (length r) + 3 + Z.of_nat (length (encode_records recs)).
Proof.
  rewrite encode_records_cons, length_app, Nat2Z.inj_add, length_encode_record.
  reflexivity.
Qed.

Lemma length_encode_records_ge recs :
  (length recs <= length (encode_records recs))%nat.
Proof.
  induction recs as [|r recs IH]; [simpl; lia|].
  pose proof (length_encode_records_cons r recs). simpl length at 1. lia.
Qed.

Lemma search_walk s len : forall recs pre acc fuel,
  nul_free s = true ->
  Forall (fun r => representable r = true) recs ->
  (length recs <= fuel)%nat ->
  int32 acc = acc ->
  let buf := Some <$> (pre ++ encode_records recs ++ [x00; x00]) in
  (w ← load16 buf (Z.of_nat (length pre));
   search_loop fuel s len buf (Z.of_nat (length pre)) acc w)
  = Ok (if found_in s len recs then 0
        else int32 (acc + Z.of_nat (length (encode_records recs)))).
Proof.
  induction recs as [|r recs IH]; intros pre acc fuel Hs Hrecs Hfuel Hacc buf.
  - subst buf. simpl encode_records. simpl app.
    rewrite (load16_mid pre [] 0) by lia. simpl.
    destruct fuel; simpl; rewrite Z.add_0_r, Hacc; reflexivity.
  - inversion Hrecs as [|? ? Hr Hrecs']; subst.
    apply representable_spec in Hr as [Hrn Hrl].
    destruct fuel as [|fuel]; [simpl in Hfuel; lia|].
    subst buf. set (w := Z.of_nat (length r) + 1).
    assert (Hb : pre ++ encode_records (r :: recs) ++ [x00; x00]
                 = pre ++ enc16 w ++ r ++ [x00] ++ encode_records recs ++ [x00; x00]).
    { rewrite encode_records_cons. unfold encode_record. fold w.
      rewrite <- !app_assoc. reflexivity. }
    rewrite Hb. rewrite load16_mid by lia.
    cbn [mbind outcome_bind search_loop].
    destruct (Z.eqb_spec w 0) as [Hw0|_]; [lia|].
    assert (Hbuf : pre ++ enc16 w ++ r ++ [x00] ++ encode_records recs ++ [x00; x00]
                   = (pre ++ enc16 w) ++ r ++ x00 :: (encode_records recs ++ [x00; x00])).
    { rewrite <- !app_assoc. reflexivity. }
    assert (Hp : Z.of_nat (length pre) + sizeof_length_type
                 = Z.of_nat (length (pre ++ enc16 w))).
    { rewrite length_app. unfold enc16, sizeof_length_type. simpl. lia. }
    destruct (strcmp_mid s r (pre ++ enc16 w) (encode_records recs ++ [x00; x00])
                _ Hp Hs Hrn) as (c & Hc & Hiff).
    rewrite <- Hbuf in Hc.
    assert (Hnext :
      (w0 ← load16 (Some <$> (pre ++ enc16 w ++ r ++ [x00] ++ encode_records recs ++ [x00; x00]))
             (Z.of_nat (length pre) + sizeof_length_type + w);
       search_loop fuel s len
         (Some <$> (pre ++ enc16 w ++ r ++ [x00] ++ encode_records recs ++ [x00; x00]))
         (Z.of_nat (length pre) + sizeof_length_type + w)
         (int32 (size_t (size_t acc + size_t (size_t w + sizeof_length_type)))) w0)
      = Ok (if found_in s len recs then 0
            else int32 (acc + Z.of_nat (length (encode_records (r :: recs)))))).
    { replace (pre ++ enc16 w ++ r ++ [x00] ++ encode_records recs ++ [x00; x00])
        with ((pre ++ encode_record r) ++ encode_records recs ++ [x00; x00])
        by (unfold encode_record; fold w; rewrite <- !app_assoc; reflexivity).
      replace (Z.of_nat (length pre) + sizeof_length_type + w)
        with (Z.of_nat (length (pre ++ encode_record r)))
        by (rewrite length_app, Nat2Z.inj_add, length_encode_record;
            unfold sizeof_length_type; lia).
      rewrite IH; auto; [|simpl in Hfuel; lia|wrap_lia].
      rewrite length_encode_records_cons.
      destruct (found_in s len recs); [reflexivity|].
      f_equal. unfold sizeof_length_type. subst w. wrap_lia. }
    unfold found_in. cbn [existsb]. fold (found_in s len recs). fold w.
    destruct (Z.eqb_spec w len) as [Hwl|Hwl].
    + rewrite Hc. cbn [mbind outcome_bind andb].
      destruct (Z.eqb_spec c 0) as [Hc0|Hc0].
      * apply Hiff in Hc0. rewrite bool_decide_eq_true_2 by auto. reflexivity.
      * rewrite bool_decide_eq_false_2 by (rewrite <- Hiff; auto).
        cbn [orb]. exact Hnext.
    + cbn [mbind outcome_bind andb orb]. exact Hnext.
Qed.

Lemma found_in_elem s recs :
  found_in s (Z.of_nat (length s) + 1) recs = bool_decide (s ∈ recs).
Proof.
  induction recs as [|r recs IH]; [reflexivity|].
  unfold found_in in *. cbn [existsb]. rewrite IH.
  destruct (decide (s = r)) as [->|Hne].
  - rewrite Z.eqb_refl, bool_decide_eq_true_2 by reflexivity.
    rewrite (bool_decide_eq_true_2 (r ∈ r :: recs)) by left. reflexivity.
  - rewrite (bool_decide_eq_false_2 (s = r)) by auto.
    rewrite andb_false_r. cbn [orb].
    apply bool_decide_ext. rewrite elem_of_cons. tauto.
Qed.

Lemma found_in_absent s len recs : s ∉ recs -> found_in s len recs = false.
Proof.
  induction recs as [|r recs IH]; [reflexivity|].
  rewrite not_elem_of_cons. intros [Hne Hnot].
  unfold found_in in *. cbn [existsb]. rewrite IH by auto.
  rewrite (bool_decide_eq_false_2 (s = r)) by auto.
  rewrite andb_false_r. reflexivity.
Qed.

Lemma search_slot_spec s len recs :
  nul_free s = true ->
  Forall (fun r => representable r = true) recs ->
  search_slot s len (Some <$> (encode_records recs ++ [x00; x00]))
  = Ok (if found_in s len recs then 0
        else int32 (Z.of_nat (length (encode_records recs)))).
Proof.
  intros Hs Hrecs. unfold search_slot.
  apply (search_walk s len recs [] 0); auto.
  rewrite length_fmap, length_app.
  pose proof (length_encode_records_ge recs). lia.
Qed.

(** ** Writing into a buffer *)

Lemma length_write_bytes (buf : buffer) q bs :
  (q + length bs <= length buf)%nat ->
  length (write_bytes buf q bs) = length buf.
Proof.
  intros H. unfold write_bytes.
  rewrite !length_app, length_take, length_fmap, length_drop. lia.
Qed.

Lemma write_bytes_app (buf : buffer) q a b :
  (q + length a <= length buf)%nat ->
  write_bytes (write_bytes buf q a) (q + length a) b
  = write_bytes buf q (a ++ b).
Proof.
  intros H. unfold write_bytes.
  rewrite take_app_ge by (rewrite length_take; lia).
  rewrite length_take, Nat.min_l by lia.
  replace (q + length a - q)%nat with (length (Some <$> a))
    by (rewrite length_fmap; lia).
  rewrite take_app_length.
  rewrite fmap_app, <- !app_assoc. do 3 f_equal.
  rewrite !drop_app_ge by (rewrite ?length_take, ?length_fmap; lia).
  rewrite drop_drop, length_take, length_fmap, length_app.
  f_equal. lia.
Qed.

Lemma store8_write (buf : buffer) (q : nat) b :
  (q < length buf)%nat ->
  store8 buf (Z.of_nat q) b = Ok (write_bytes buf q [b]).
Proof.
  intros H. unfold store8.
  destruct (Z.leb_spec 0 (Z.of_nat q)); [|lia].
  destruct (Z.ltb_spec (Z.of_nat q) (Z.of_nat (length buf))); [|lia].
  simpl. rewrite Nat2Z.id. f_equal. unfold write_bytes.
  rewrite insert_take_drop by lia. simpl.
  replace (q + 1)%nat with (S q) by lia. reflexivity.
Qed.

Lemma store16_write (buf : buffer) (q : nat) w :
  (q + 2 <= length buf)%nat ->
  store16 buf (Z.of_nat q) w = Ok (write_bytes buf q (enc16 w)).
Proof.
  intros H. unfold store16.
  rewrite store8_write by lia. cbn [mbind outcome_bind].
  replace (Z.of_nat q + 1) with (Z.of_nat (q + 1)) by lia.
  rewrite store8_write by (rewrite length_write_bytes; simpl; lia).
  rewrite (write_bytes_app buf q [_] [_]) by (simpl; lia). reflexivity.
Qed.

Lemma strcpy_write s : forall (buf : buffer) (q : nat),
  nul_free s = true ->
  (q + length s + 1 <= length buf)%nat ->
  strcpy buf (Z.of_nat q) s = Ok (write_bytes buf q (s ++ [x00])).
Proof.
  induction s as [|c s IH]; intros buf q Hs Hq.
  - simpl. apply store8_write. simpl in Hq. lia.
  - apply nul_free_cons in Hs as [Hc Hs]. simpl in Hq.
    cbn [strcpy]. rewrite store8_write by lia. cbn [mbind outcome_bind].
    apply byte_eqb_neq in Hc. rewrite Hc.
    replace (Z.of_nat q + 1) with (Z.of_nat (q + 1)) by lia.
    rewrite IH; auto.
    + rewrite (write_bytes_app buf q [c]) by (simpl; lia). reflexivity.
    + rewrite length_write_bytes; simpl; lia.
Qed.

(** Writing a whole record and the sentinel behind the bytes [old] of a
    buffer that has exactly the room for them. *)
Lemma write_bytes_tail (old bs : list byte) :
  write_bytes ((Some <$> old) ++ replicate (length bs) None) (length old) bs
  = Some <$> (old ++ bs).
Proof.
  unfold write_bytes.
  rewrite take_app_length' by (rewrite length_fmap; reflexivity).
  rewrite drop_app_ge by (rewrite length_fmap; lia).
  rewrite length_fmap.
  rewrite drop_ge by (rewrite length_replicate; lia).
  rewrite app_nil_r, fmap_app. reflexivity.
Qed.

Lemma enc16_zero : enc16 0 = [x00; x00].
Proof. reflexivity. Qed.

Lemma write_record_spec t (i : nat) (old : list byte) s :
  representable s = true ->
  write_record t (Z.of_nat i)
    ((Some <$> old) ++ replicate (length (encode_record s ++ [x00; x00])) None)
    (Z.of_nat (length old)) s (Z.of_nat (length s) + 1)
  = Ok {| data := <[i := Some (Some <$> (old ++ encode_record s ++ [x00; x00]))]> (data t);
          _size := size_t (_size t + 1) |}.
Proof.
  intros Hs. apply representable_spec in Hs as [Hn Hl].
  unfold write_record.
  set (buf := (Some <$> old) ++ replicate _ None).
  assert (Hlen : length buf = (length old + (length s + 5))%nat).
  { subst buf. rewrite length_app, length_fmap, length_replicate.
    unfold encode_record, enc16. rewrite !length_app. simpl. lia. }
  rewrite store16_write by lia. cbn [mbind outcome_bind].
  replace (Z.of_nat (length old) + sizeof_length_type)
    with (Z.of_nat (length old + length (enc16 (Z.of_nat (length s) + 1))))
    by (unfold sizeof_length_type; simpl; lia).
  rewrite strcpy_write; auto;
    [|rewrite length_write_bytes; simpl; lia].
  cbn [mbind outcome_bind].
  rewrite write_bytes_app by (simpl; lia).
  replace (Z.of_nat (length old + length (enc16 (Z.of_nat (length s) + 1)))
           + (Z.of_nat (length s) + 1))
    with (Z.of_nat (length old
           + length (enc16 (Z.of_nat (length s) + 1) ++ s ++ [x00])))
    by (rewrite length_app, length_app; simpl; lia).
  rewrite store16_write
    by (rewrite length_write_bytes; rewrite ?length_app, ?length_app; simpl; lia).
  cbn [mbind outcome_bind].
  rewrite write_bytes_app by (rewrite ?length_app, ?length_app; simpl; lia).
  rewrite Nat2Z.id, enc16_zero.
  subst buf.
  replace ((enc16 (Z.of_nat (length s) + 1) ++ s ++ [x00]) ++ [x00; x00])
    with (encode_record s ++ [x00; x00]) by reflexivity.
  rewrite write_bytes_tail. reflexivity.
Qed.

(** ** Tables as lists of slots *)

Lemma slot_at_encode (M : list (list (list byte))) (i : nat) recs :
  length M = Z.to_nat SLOT_COUNT -> M !! i = Some recs ->
  slot_at (encode_slot <$> M) (Z.of_nat i) = Ok (encode_slot recs).
Proof.
  intros HM Hi. unfold slot_at.
  pose proof (lookup_lt_Some _ _ _ Hi) as Hlt.
  destruct (Z.leb_spec 0 (Z.of_nat i)); [|lia].
  destruct (Z.ltb_spec (Z.of_nat i) SLOT_COUNT); [|lia].
  simpl. rewrite Nat2Z.id, list_lookup_fmap, Hi. reflexivity.
Qed.

Lemma concat_insert_app {A} (M : list (list A)) i recs x :
  M !! i = Some recs ->
  concat (<[i := recs ++ [x]]> M) ≡ₚ x :: concat M.
Proof.
  intros Hi. pose proof (lookup_lt_Some _ _ _ Hi) as Hlt.
  rewrite insert_take_drop by auto.
  rewrite <- (take_drop_middle M i recs Hi) at 3.
  rewrite !concat_app, !concat_cons.
  rewrite <- app_assoc. simpl.
  rewrite <- (Permutation_middle recs).
  rewrite <- (Permutation_middle (concat (take i M))). reflexivity.
Qed.

Lemma elem_of_concat {A} (x : A) (M : list (list A)) :
  x ∈ concat M <-> exists i recs, M !! i = Some recs /\ x ∈ recs.
Proof.
  rewrite list_elem_of_In, in_concat. split.
  - intros (recs & Hin & Hx). apply list_elem_of_In in Hin, Hx.
    apply list_elem_of_lookup in Hin as [i Hi]. eauto.
  - intros (i & recs & Hi & Hx). exists recs.
    rewrite <- !list_elem_of_In. split; auto.
    apply list_elem_of_lookup. eauto.
Qed.

Lemma length_concat_bound (M : list (list (list byte))) B :
  (forall i recs, M !! i = Some recs ->
     Z.of_nat (length (encode_records recs)) < B) ->
  Z.of_nat (length (concat M)) <= Z.of_nat (length M) * B.
Proof.
  induction M as [|recs M IH]; intros HB; [simpl; lia|].
  rewrite concat_cons, length_app. cbn [length].
  pose proof (HB 0%nat recs eq_refl).
  pose proof (length_encode_records_ge recs).
  assert (Z.of_nat (length (concat M)) <= Z.of_nat (length M) * B).
  { apply IH. intros i r Hi. apply (HB (S i)). exact Hi. }
  nia.
Qed.

(** ** [insert] on the layout *)

Lemma default_length s :
  representable s = true ->
  int16 (int16 (strlen s) + 1) = Z.of_nat (length s) + 1.
Proof.
  intros Hs. apply representable_spec in Hs as [Hn Hl].
  rewrite nul_free_strlen by auto. wrap_lia.
Qed.

Lemma encode_slot_snoc recs s :
  encode_slot (recs ++ [s])
  = Some (Some <$> (encode_records recs ++ encode_record s ++ [x00; x00])).
Proof.
  unfold encode_slot. destruct (recs ++ [s]) eqn:E.
  - destruct recs; discriminate.
  - rewrite <- E, encode_records_app. unfold encode_records at 2. simpl.
    rewrite app_nil_r, <- app_assoc. reflexivity.
Qed.

Lemma table_inv_size M :
  table_inv M -> 0 <= Z.of_nat (length (concat M)) < 2 ^ 63.
Proof.
  intros HM. split; [lia|].
  pose proof (length_concat_bound M _ (inv_bytes M HM)) as Hb.
  rewrite (inv_length M HM) in Hb. change (Z.of_nat (Z.to_nat SLOT_COUNT)) with 2048 in Hb.
  unwrap. lia.
Qed.

Lemma encode_table_insert M i recs s :
  table_inv M -> M !! i = Some recs ->
  {| data := <[i := Some (Some <$> (encode_records recs ++ encode_record s ++ [x00; x00]))]>
               (data (encode_table M));
     _size := size_t (_size (encode_table M) + 1) |}
  = encode_table (<[i := recs ++ [s]]> M).
Proof.
  intros HM Hi. unfold encode_table. cbn [data _size].
  rewrite list_fmap_insert, encode_slot_snoc. f_equal.
  rewrite (Permutation_length (concat_insert_app M i recs s Hi)).
  pose proof (table_inv_size M HM). cbn [length]. wrap_lia.
Qed.

Lemma insert_encode M s recs :
  table_inv M -> representable s = true ->
  M !! Z.to_nat (slot_index s) = Some recs ->
  insert (encode_table M) s 0
  = if bool_decide (s ∈ recs) then Ok (encode_table M)
    else if Z.of_nat (length (encode_records recs)) <? SLOT_LIMIT
         then Ok (encode_table (<[Z.to_nat (slot_index s) := recs ++ [s]]> M))
         else BadAlloc.
Proof.
  intros HM Hs Hi.
  pose proof (slot_index_range s) as Hrange.
  pose proof (representable_spec s) as [Hrs _]. destruct (Hrs Hs) as [Hn Hl].
  unfold insert. rewrite Z.eqb_refl.
  rewrite default_length by auto.
  replace (int16 (Z.of_nat (length s) + 1 - 1)) with (Z.of_nat (length s))
    by wrap_lia.
  rewrite hash_whole. cbn [mbind outcome_bind].
  rewrite <- (Z2Nat.id (slot_index s)) at 1 by lia.
  cbn [encode_table data].
  rewrite (slot_at_encode M _ recs (inv_length M HM) Hi).
  cbn [mbind outcome_bind].
  destruct recs as [|r recs].
  - (* the slot is empty *)
    rewrite bool_decide_eq_false_2 by (apply not_elem_of_nil).
    cbn [encode_slot encode_records map concat length].
    change (Z.of_nat 0 <? SLOT_LIMIT) with true. cbn iota.
    replace (int32 (size_t (size_t (Z.of_nat (length s) + 1) + 2 * sizeof_length_type)))
      with (Z.of_nat (length s) + 5) by wrap_lia.
    unfold new_char.
    destruct (Z.leb_spec (size_t (Z.of_nat (length s) + 5)) MAX_ALLOC);
      [|wrap_lia].
    cbn [mbind outcome_bind].
    replace (Z.to_nat (size_t (Z.of_nat (length s) + 5)))
      with (length (encode_record s ++ [x00; x00]))
      by (rewrite length_app; pose proof (length_encode_record s);
          cbn [length]; wrap_lia).
    rewrite <- (Z2Nat.id (slot_index s)) at 1 by lia.
    pose proof (write_record_spec (encode_table M) (Z.to_nat (slot_index s)) [] s Hs) as Hw.
    cbn [fmap list_fmap app length] in Hw. change (Z.of_nat 0) with 0 in Hw.
    cbn [encode_table] in Hw. rewrite Hw.
    f_equal. apply (encode_table_insert M _ [] s HM Hi).
  - (* the slot holds records *)
    assert (Hrecs : Forall (fun r => representable r = true) (r :: recs)).
    { apply Forall_forall. intros x Hx. eapply (inv_repr M HM); eauto. }
    cbn [encode_slot]. unfold search.
    rewrite search_slot_spec by auto.
    cbn [mbind outcome_bind]. rewrite found_in_elem.
    destruct (bool_decide (s ∈ r :: recs)) eqn:Hin; [reflexivity|].
    pose proof (inv_bytes M HM _ _ Hi) as Hbytes.
    pose proof (length_encode_records_cons r recs) as Hcons.
    set (S0 := Z.of_nat (length (encode_records (r :: recs)))) in *.
    destruct (Z.eqb_spec (int32 S0) 0) as [Hz|Hz]; [wrap_lia|].
    destruct (Z.ltb_spec S0 SLOT_LIMIT) as [Hlt|Hge].
    + replace (int32 S0) with S0 by wrap_lia.
      unfold new_char.
      destruct (Z.leb_spec (size_t (size_t (size_t S0 + 2 * sizeof_length_type)
                                    + size_t (Z.of_nat (length s) + 1))) MAX_ALLOC);
        [|wrap_lia].
      cbn [mbind outcome_bind].
      replace (Z.to_nat (size_t (size_t (size_t S0 + 2 * sizeof_length_type)
                                 + size_t (Z.of_nat (length s) + 1))))
        with (length (encode_records (r :: recs))
              + length (encode_record s ++ [x00; x00]))%nat
        by (rewrite (length_app (encode_record s));
            pose proof (length_encode_record s); cbn [length];
            subst S0; wrap_lia).
      unfold memcpy.
      replace (size_t S0) with S0 by wrap_lia.
      rewrite length_fmap, length_app, length_replicate.
      destruct (Z.leb_spec S0 (Z.of_nat (length (encode_records (r :: recs)) + length [x00; x00]))) as [_|Hbad];
        [|subst S0; lia].
      destruct (Z.leb_spec S0 (Z.of_nat (length (encode_records (r :: recs))
                 + length (encode_record s ++ [x00; x00])))) as [_|Hbad];
        [|subst S0; lia].
      cbn [andb mbind outcome_bind].
      subst S0. rewrite Nat2Z.id.
      rewrite fmap_app, take_app_length' by (rewrite length_fmap; reflexivity).
      rewrite drop_replicate.
      replace (length (encode_records (r :: recs))
               + length (encode_record s ++ [x00; x00])
               - length (encode_records (r :: recs)))%nat
        with (length (encode_record s ++ [x00; x00])) by lia.
      rewrite <- (Z2Nat.id (slot_index s)) at 1 by lia.
      rewrite write_record_spec by auto.
      f_equal. apply (encode_table_insert M _ (r :: recs) s HM Hi).
    + unfold new_char.
      destruct (Z.leb_spec (size_t (size_t (size_t (int32 S0) + 2 * sizeof_length_type)
                                    + size_t (Z.of_nat (length s) + 1))) MAX_ALLOC);
        [wrap_lia|]. reflexivity.
Qed.

(** ** The invariant *)

Lemma encode_table_new : encode_table empty_strings = array_hash_new.
Proof. vm_compute. reflexivity. Qed.

Lemma concat_empty_strings : concat empty_strings = [].
Proof. vm_compute. reflexivity. Qed.

Lemma table_inv_new : table_inv empty_strings.
Proof.
  unfold empty_strings. split.
  - apply length_replicate.
  - intros i recs s Hi Hs. apply lookup_replicate in Hi as [-> _].
    inversion Hs.
  - intros i recs s Hi Hs. apply lookup_replicate in Hi as [-> _].
    inversion Hs.
  - fold empty_strings. rewrite concat_empty_strings. constructor.
  - intros i recs Hi. apply lookup_replicate in Hi as [-> _].
    simpl. unwrap. lia.
Qed.

Lemma table_inv_lookup M s :
  table_inv M -> exists recs, M !! Z.to_nat (slot_index s) = Some recs.
Proof.
  intros HM. apply lookup_lt_is_Some_2. rewrite (inv_length M HM).
  pose proof (slot_index_range s). lia.
Qed.

Lemma table_inv_elem M s recs :
  table_inv M -> M !! Z.to_nat (slot_index s) = Some recs ->
  s ∈ concat M <-> s ∈ recs.
Proof.
  intros HM Hi. rewrite elem_of_concat. split.
  - intros (j & recs' & Hj & Hs).
    pose proof (inv_slot M HM _ _ _ Hj Hs) as Hslot.
    rewrite Hslot, Nat2Z.id in Hi. congruence.
  - eauto.
Qed.

Lemma table_inv_add M s recs :
  table_inv M -> representable s = true ->
  M !! Z.to_nat (slot_index s) = Some recs -> s ∉ recs ->
  Z.of_nat (length (encode_records recs)) < SLOT_LIMIT ->
  table_inv (<[Z.to_nat (slot_index s) := recs ++ [s]]> M).
Proof.
  intros HM Hs Hi Hnot Hlim.
  pose proof (slot_index_range s) as Hrange.
  assert (Hlook : forall j rs, <[Z.to_nat (slot_index s) := recs ++ [s]]> M !! j = Some rs ->
            (j = Z.to_nat (slot_index s) /\ rs = recs ++ [s]) \/
            (j <> Z.to_nat (slot_index s) /\ M !! j = Some rs)).
  { intros j rs Hj. destruct (decide (j = Z.to_nat (slot_index s))) as [->|Hne].
    - rewrite list_lookup_insert_eq in Hj by (eapply lookup_lt_Some; eauto).
      left. split; congruence.
    - rewrite list_lookup_insert_ne in Hj by auto. right. auto. }
  split.
  - rewrite length_insert. apply (inv_length M HM).
  - intros j rs x Hj Hx. destruct (Hlook j rs Hj) as [[-> ->]|[_ Hj']].
    + apply elem_of_app in Hx as [Hx|Hx].
      * eapply (inv_repr M HM); eauto.
      * apply list_elem_of_singleton in Hx as ->. auto.
    + eapply (inv_repr M HM); eauto.
  - intros j rs x Hj Hx. destruct (Hlook j rs Hj) as [[-> ->]|[_ Hj']].
    + apply elem_of_app in Hx as [Hx|Hx].
      * eapply (inv_slot M HM); eauto.
      * apply list_elem_of_singleton in Hx as ->. lia.
    + eapply (inv_slot M HM); eauto.
  - rewrite (concat_insert_app M _ recs s Hi). constructor.
    + rewrite (table_inv_elem M s recs HM Hi). auto.
    + apply (inv_nodup M HM).
  - intros j rs Hj. destruct (Hlook j rs Hj) as [[-> ->]|[_ Hj']].
    + rewrite encode_records_app, length_app, Nat2Z.inj_add.
      pose proof (length_encode_records_cons s []) as Hc.
      cbn [encode_records map concat length] in Hc.
      cbn [encode_records map concat].
      apply representable_spec in Hs as [_ Hl]. unwrap. lia.
    + eapply (inv_bytes M HM); eauto.
Qed.

(** ** [find] on the layout *)

Lemma find_encode M s :
  table_inv M -> nul_free s = true ->
  find (encode_table M) s 0 = Ok (bool_decide (s ∈ concat M)).
Proof.
  intros HM Hn. unfold find, search. rewrite Z.eqb_refl.
  rewrite int16_succ_pred, nul_free_strlen by auto.
  set (len := int16 (int16 (Z.of_nat (length s)) + 1)).
  rewrite hash_prefix by wrap_lia.
  set (j := Z.land _ _).
  pose proof (land_slot_range (fold_left hash_step
     (take (Z.to_nat (int16 (Z.of_nat (length s)))) s) 23)) as Hj. fold j in Hj.
  destruct (lookup_lt_is_Some_2 M (Z.to_nat j)) as [recs Hrecs].
  { rewrite (inv_length M HM). lia. }
  cbn [mbind outcome_bind encode_table data].
  rewrite <- (Z2Nat.id j) by lia.
  rewrite (slot_at_encode M _ recs (inv_length M HM) Hrecs).
  cbn [mbind outcome_bind].
  assert (Hrepr : Forall (fun r => representable r = true) recs).
  { apply Forall_forall. intros x Hx. eapply (inv_repr M HM); eauto. }
  destruct (decide (s ∈ concat M)) as [Hin|Hnot].
  - rewrite bool_decide_eq_true_2 by auto.
    apply elem_of_concat in Hin as (i & rs & Hi & Hs).
    pose proof (inv_repr M HM _ _ _ Hi Hs) as Hrs.
    pose proof (inv_slot M HM _ _ _ Hi Hs) as Hslot.
    apply representable_spec in Hrs as [_ Hl].
    assert (Hlen : len = Z.of_nat (length s) + 1) by (subst len; wrap_lia).
    assert (Hjs : j = slot_index s).
    { subst j. replace (int16 (Z.of_nat (length s))) with (Z.of_nat (length s))
        by wrap_lia.
      rewrite Nat2Z.id, firstn_all. reflexivity. }
    rewrite Hjs, Hslot, Nat2Z.id in Hrecs. rewrite Hi in Hrecs.
    injection Hrecs as <-.
    destruct rs as [|r rs]; [inversion Hs|].
    cbn [encode_slot]. rewrite search_slot_spec by auto.
    rewrite Hlen, found_in_elem, bool_decide_eq_true_2 by auto.
    reflexivity.
  - rewrite bool_decide_eq_false_2 by auto.
    destruct recs as [|r recs]; [reflexivity|].
    cbn [encode_slot]. rewrite search_slot_spec by auto.
    rewrite found_in_absent.
    + cbn [mbind outcome_bind]. do 2 f_equal.
      pose proof (inv_bytes M HM _ _ Hrecs) as Hb.
      pose proof (length_encode_records_cons r recs) as Hc.
      apply Z.eqb_neq. wrap_lia.
    + intros Hs. apply Hnot. apply elem_of_concat. eauto.
Qed.

(** ** Runs of [insert] *)

Lemma insert_step M s t :
  table_inv M -> representable s = true ->
  insert (encode_table M) s 0 = Ok t ->
  exists M', table_inv M' /\ t = encode_table M' /\
    (forall x, x ∈ concat M' <-> x = s \/ x ∈ concat M) /\
    (s ∈ concat M -> M' = M).
Proof.
  intros HM Hs Hins.
  destruct (table_inv_lookup M s HM) as [recs Hi].
  rewrite (insert_encode M s recs HM Hs Hi) in Hins.
  pose proof (table_inv_elem M s recs HM Hi) as Helem.
  destruct (decide (s ∈ recs)) as [Hin|Hnot].
  - rewrite bool_decide_eq_true_2 in Hins by auto. injection Hins as <-.
    exists M. split; [auto|]. split; [reflexivity|]. split; [|auto].
    intros x. split.
    + intros Hx. right. exact Hx.
    + intros [->|Hx]; [apply Helem; exact Hin | exact Hx].
  - rewrite bool_decide_eq_false_2 in Hins by auto.
    destruct (Z.ltb_spec (Z.of_nat (length (encode_records recs))) SLOT_LIMIT)
      as [Hlt|Hge]; [|discriminate].
    injection Hins as <-.
    exists (<[Z.to_nat (slot_index s) := recs ++ [s]]> M).
    split; [apply table_inv_add; auto|]. split; [reflexivity|]. split.
    + intros x. rewrite (concat_insert_app M _ recs s Hi), elem_of_cons.
      reflexivity.
    + intros Hin. exfalso. apply Hnot, Helem, Hin.
Qed.

Lemma insert_all_encode l : forall M t,
  table_inv M -> Forall (fun s => representable s = true) l ->
  insert_all (encode_table M) l = Ok t ->
  exists M', table_inv M' /\ t = encode_table M' /\
    (forall x, x ∈ concat M' <-> x ∈ concat M \/ x ∈ l).
Proof.
  induction l as [|s l IH]; intros M t HM Hl Hrun.
  - injection Hrun as <-. exists M. split; [auto|]. split; [reflexivity|].
    intros x. split.
    + intros Hx. left. exact Hx.
    + intros [Hx|Hx]; [exact Hx | inversion Hx].
  - inversion Hl as [|? ? Hs Hl']; subst.
    cbn [insert_all] in Hrun.
    destruct (insert (encode_table M) s 0) as [t1| | |] eqn:Hins;
      try discriminate.
    cbn [mbind outcome_bind] in Hrun.
    destruct (insert_step M s t1 HM Hs Hins) as (M1 & HM1 & -> & Hel & _).
    destruct (IH M1 t HM1 Hl' Hrun) as (M' & HM' & -> & Hel').
    exists M'. split; [auto|]. split; [reflexivity|].
    intros x. split.
    + intros Hx. apply Hel' in Hx as [Hx|Hx].
      * apply Hel in Hx as [->|Hx]; [right; left | left; auto].
      * right. right. exact Hx.
    + intros [Hx|Hx]; apply Hel'.
      * left. apply Hel. right. exact Hx.
      * apply elem_of_cons in Hx as [->|Hx]; [left; apply Hel; left; reflexivity | right; exact Hx].
Qed.

(** The tables that runs of [insert] from the empty table produce. *)
Lemma reachable_encode l t :
  Forall (fun s => representable s = true) l ->
  insert_all array_hash_new l = Ok t ->
  exists M, table_inv M /\ t = encode_table M /\
    (forall x, x ∈ concat M <-> x ∈ l).
Proof.
  intros Hl Hrun. rewrite <- encode_table_new in Hrun.
  destruct (insert_all_encode l _ t table_inv_new Hl Hrun) as (M & HM & -> & Hel).
  exists M. split; [auto|]. split; [reflexivity|].
  intros x. split.
  - intros Hx. apply Hel in Hx as [Hx|Hx]; [|exact Hx].
    rewrite concat_empty_strings in Hx. inversion Hx.
  - intros Hx. apply Hel. right. exact Hx.
Qed.

Lemma distinct_count (M : list (list (list byte))) l :
  NoDup (concat M) -> (forall x, x ∈ concat M <-> x ∈ l) ->
  length (concat M) = length (remove_dups l).
Proof.
  intros Hnd Hel. apply Permutation_length, NoDup_Permutation; auto.
  - apply NoDup_remove_dups.
  - intros x. rewrite elem_of_remove_dups. apply Hel.
Qed.

(** ** Enough memory: runs that cannot fail *)

Lemma length_encode_records_lookup (M : list (list (list byte))) i recs :
  M !! i = Some recs ->
  (length (encode_records recs) <= length (encode_records (concat M)))%nat.
Proof.
  revert i. induction M as [|r M IH]; intros i Hi; [discriminate|].
  rewrite concat_cons, encode_records_app, length_app.
  destruct i as [|i]; simpl in Hi.
  - injection Hi as ->. lia.
  - specialize (IH i Hi). lia.
Qed.

Lemma insert_all_total l : forall M,
  table_inv M -> Forall (fun s => representable s = true) l ->
  Z.of_nat (length (encode_records (concat M)))
    + Z.of_nat (length (encode_records l)) <= SLOT_LIMIT ->
  exists t, insert_all (encode_table M) l = Ok t.
Proof.
  induction l as [|s l IH]; intros M HM Hl Hb; [eexists; reflexivity|].
  inversion Hl as [|? ? Hs Hl']; subst.
  destruct (table_inv_lookup M s HM) as [recs Hi].
  cbn [insert_all]. rewrite (insert_encode M s recs HM Hs Hi).
  pose proof (length_encode_records_cons s l) as Hc.
  destruct (decide (s ∈ recs)) as [Hin|Hnot].
  - rewrite bool_decide_eq_true_2 by auto. cbn [mbind outcome_bind].
    apply IH; auto. lia.
  - rewrite bool_decide_eq_false_2 by auto.
    pose proof (length_encode_records_lookup M _ recs Hi) as Hle.
    destruct (Z.ltb_spec (Z.of_nat (length (encode_records recs))) SLOT_LIMIT)
      as [Hlt|Hge]; [|lia].
    cbn [mbind outcome_bind]. apply IH; auto.
    + apply table_inv_add; auto.
    + assert (Hp : encode_records (concat (<[Z.to_nat (slot_index s) := recs ++ [s]]> M))
                   ≡ₚ encode_records (s :: concat M)).
      { unfold encode_records. rewrite (concat_insert_app M _ recs s Hi).
        reflexivity. }
      rewrite (Permutation_length Hp), length_encode_records_cons. lia.
Qed.

Lemma insert_all_succeeds l :
  Forall (fun s => representable s = true) l ->
  Z.of_nat (length (encode_records l)) <= SLOT_LIMIT ->
  exists t, insert_all array_hash_new l = Ok t.
Proof.
  intros Hl Hb. rewrite <- encode_table_new.
  apply insert_all_total; auto using table_inv_new.
Qed.

(** ** Reading the records back *)

Lemma read_bytes_mid bs : forall (pre post : list byte),
  read_bytes (length bs) (Some <$> (pre ++ bs ++ post)) (Z.of_nat (length pre))
  = Ok bs.
Proof.
  induction bs as [|b bs IH]; intros pre post; [reflexivity|].
  cbn [length read_bytes app].
  rewrite load8_mid by reflexivity. cbn [mbind outcome_bind].
  replace (pre ++ b :: bs ++ post) with ((pre ++ [b]) ++ bs ++ post)
    by (rewrite <- app_assoc; reflexivity).
  replace (Z.of_nat (length pre) + 1) with (Z.of_nat (length (pre ++ [b])))
    by (rewrite length_app; simpl; lia).
  rewrite IH. reflexivity.
Qed.

Lemma records_from_walk : forall recs pre fuel,
  Forall (fun r => representable r = true) recs ->
  (length recs <= fuel)%nat ->
  records_from fuel (Some <$> (pre ++ encode_records recs ++ [x00; x00]))
    (Z.of_nat (length pre))
  = Ok (record_of <$> recs).
Proof.
  induction recs as [|r recs IH]; intros pre fuel Hrecs Hfuel.
  - cbn [encode_records map concat app].
    destruct fuel; cbn [records_from];
      rewrite (load16_mid pre [] 0) by lia; reflexivity.
  - inversion Hrecs as [|? ? Hr Hrecs']; subst.
    apply representable_spec in Hr as [Hrn Hrl].
    destruct fuel as [|fuel]; [simpl in Hfuel; lia|].
    set (w := Z.of_nat (length r) + 1).
    assert (Hb : pre ++ encode_records (r :: recs) ++ [x00; x00]
                 = pre ++ enc16 w ++ (r ++ [x00]) ++ encode_records recs ++ [x00; x00]).
    { rewrite encode_records_cons. unfold encode_record. fold w.
      rewrite <- !app_assoc. reflexivity. }
    cbn [records_from]. rewrite Hb at 1. rewrite load16_mid by lia.
    cbn [mbind outcome_bind].
    destruct (Z.eqb_spec w 0) as [Hw0|_]; [lia|].
    replace (pre ++ encode_records (r :: recs) ++ [x00; x00])
      with ((pre ++ enc16 w) ++ (r ++ [x00]) ++ encode_records recs ++ [x00; x00]) at 1
      by (rewrite Hb, <- !app_assoc; reflexivity).
    replace (Z.of_nat (length pre) + sizeof_length_type)
      with (Z.of_nat (length (pre ++ enc16 w)))
      by (rewrite length_app; unfold sizeof_length_type; simpl; lia).
    replace (Z.to_nat w) with (length (r ++ [x00]))
      by (rewrite length_app; simpl; lia).
    rewrite read_bytes_mid. cbn [mbind outcome_bind].
    replace (pre ++ encode_records (r :: recs) ++ [x00; x00])
      with ((pre ++ encode_record r) ++ encode_records recs ++ [x00; x00])
      by (rewrite encode_records_cons, <- !app_assoc; reflexivity).
    replace (Z.of_nat (length (pre ++ enc16 w)) + w)
      with (Z.of_nat (length (pre ++ encode_record r)))
      by (rewrite !length_app, !Nat2Z.inj_add, length_encode_record;
          simpl; lia).
    rewrite IH by (auto; simpl in Hfuel; lia).
    reflexivity.
Qed.

Lemma slot_records_encode recs :
  Forall (fun r => representable r = true) recs ->
  slot_records (encode_slot recs) = Ok (record_of <$> recs).
Proof.
  intros Hrecs. destruct recs as [|r recs]; [reflexivity|].
  cbn [encode_slot slot_records].
  apply (records_from_walk (r :: recs) []); auto.
  rewrite length_fmap, length_app.
  pose proof (length_encode_records_ge (r :: recs)). lia.
Qed.

Lemma table_records_encode (M : list (list (list byte))) :
  Forall (Forall (fun r => representable r = true)) M ->
  table_records (encode_slot <$> M) = Ok (record_of <$> concat M).
Proof.
  induction M as [|recs M IH]; intros HM; [reflexivity|].
  inversion HM as [|? ? Hrecs HM']; subst.
  cbn [fmap list_fmap table_records].
  rewrite slot_records_encode by auto. cbn [mbind outcome_bind].
  fold (fmap (M:=list) encode_slot M). rewrite IH by auto.
  cbn [mbind outcome_bind]. rewrite concat_cons, fmap_app. reflexivity.
Qed.

Lemma table_inv_Forall M :
  table_inv M -> Forall (Forall (fun r => representable r = true)) M.
Proof.
  intros HM. apply Forall_forall. intros recs Hrecs.
  apply list_elem_of_lookup in Hrecs as [i Hi].
  apply Forall_forall. intros x Hx. eapply (inv_repr M HM); eauto.
Qed.

Lemma records_size_encode recs :
  records_size (record_of <$> recs) = Z.of_nat (length (encode_records recs)).
Proof.
  induction recs as [|r recs IH]; [reflexivity|].
  rewrite length_encode_records_cons. cbn [fmap list_fmap records_size fold_right].
  fold (fmap (M:=list) record_of recs). fold (records_size (record_of <$> recs)).
  rewrite IH. cbn [record_of rec_length]. unfold sizeof_length_type. lia.
Qed.

Lemma rec_string_record_of s : nul_free s = true -> rec_string (record_of s) = s.
Proof.
  intros Hs. unfold rec_string, record_of. cbn [rec_bytes].
  apply c_str_app_nul. exact Hs.
Qed.

Lemma rec_string_record_of_all recs :
  Forall (fun r => representable r = true) recs ->
  rec_string <$> (record_of <$> recs) = recs.
Proof.
  induction 1 as [|r recs Hr _ IH]; [reflexivity|].
  cbn [fmap list_fmap]. fold (fmap (M:=list) record_of recs).
  fold (fmap (M:=list) rec_string (record_of <$> recs)).
  rewrite IH, rec_string_record_of; [reflexivity|].
  apply representable_spec in Hr. tauto.
Qed.

(** ** Runs of [insert] and [find] *)

Lemma run_insert_all ops : forall t t',
  run t ops = Ok t' -> insert_all t (inserted ops) = Ok t'.
Proof.
  induction ops as [|[s|s] ops IH]; intros t t' Hrun.
  - exact Hrun.
  - cbn [run] in Hrun. cbn [inserted omap list_omap insert_all].
    destruct (insert t s 0) as [t1| | |]; try discriminate.
    cbn [mbind outcome_bind] in *. fold (inserted ops). auto.
  - cbn [run] in Hrun. cbn [inserted omap list_omap].
    destruct (find t s 0); try discriminate.
    cbn [mbind outcome_bind] in Hrun. fold (inserted ops). auto.
Qed.

Lemma run_app ops1 : forall ops2 t t',
  run t (ops1 ++ ops2) = Ok t' ->
  exists t1, run t ops1 = Ok t1 /\ run t1 ops2 = Ok t'.
Proof.
  induction ops1 as [|[s|s] ops1 IH]; intros ops2 t t' Hrun.
  - exists t. split; [reflexivity | exact Hrun].
  - cbn [app run] in *.
    destruct (insert t s 0) as [t1| | |]; try discriminate.
    cbn [mbind outcome_bind] in *. auto.
  - cbn [app run] in *.
    destruct (find t s 0); try discriminate.
    cbn [mbind outcome_bind] in *. auto.
Qed.

Lemma inserted_app ops1 ops2 :
  inserted (ops1 ++ ops2) = inserted ops1 ++ inserted ops2.
Proof. unfold inserted. apply omap_app. Qed.

Lemma forallb_Forall {A} (f : A -> bool) l :
  forallb f l = true -> Forall (fun x => f x = true) l.
Proof. intros H. apply Forall_forall. intros x Hx. apply (proj1 (forallb_forall f l) H). apply list_elem_of_In. exact Hx. Qed.

Lemma size_encode M l :
  table_inv M -> (forall x, x ∈ concat M <-> x ∈ l) ->
  size (encode_table M) = Z.of_nat (length (remove_dups l)).
Proof.
  intros HM Hel. unfold size, encode_table. cbn [_size].
  rewrite (distinct_count M l (inv_nodup M HM) Hel). reflexivity.
Qed.

Lemma forallb_elem {A} (f : A -> bool) (l : list A) x :
  forallb f l = true -> x ∈ l -> f x = true.
Proof.
  intros H Hx. apply (proj1 (forallb_forall f l) H), list_elem_of_In, Hx.
Qed.

Lemma insert_all_snoc l : forall t s,
  insert_all t (l ++ [s]) = (t1 ← insert_all t l; insert t1 s 0).
Proof.
  induction l as [|x l IH]; intros t s; cbn [app insert_all].
  - cbn [mbind outcome_bind]. destruct (insert t s 0); reflexivity.
  - destruct (insert t x 0); cbn [mbind outcome_bind]; auto.
Qed.

Lemma slot_bytes_encode M i recs :
  table_inv M -> M !! Z.to_nat i = Some recs ->
  slot_bytes (encode_table M) i = Ok (Z.of_nat (length (encode_records recs))).
Proof.
  intros HM Hi. unfold slot_bytes. cbn [encode_table data].
  rewrite list_lookup_fmap, Hi. cbn [fmap option_fmap option_map].
  rewrite slot_records_encode.
  - cbn [mbind outcome_bind]. rewrite records_size_encode. reflexivity.
  - apply Forall_forall. intros x Hx. eapply (inv_repr M HM); eauto.
Qed.

(** An insert into a slot that holds fewer than [SLOT_LIMIT] bytes
    succeeds. *)
Lemma insert_succeeds l t s :
  forallb representable l = true ->
  insert_all array_hash_new l = Ok t ->
  representable s = true ->
  (forall n, slot_bytes t (slot_index s) = Ok n -> n < SLOT_LIMIT) ->
  exists t', insert t s 0 = Ok t' /\ insert_all array_hash_new (l ++ [s]) = Ok t'.
Proof.
  intros Hl Hrun Hs Hroom.
  rewrite insert_all_snoc, Hrun. cbn [mbind outcome_bind].
  apply forallb_Forall in Hl.
  destruct (reachable_encode l t Hl Hrun) as (M & HM & -> & Hel).
  destruct (table_inv_lookup M s HM) as [recs Hi].
  specialize (Hroom _ (slot_bytes_encode M _ recs HM Hi)).
  rewrite (insert_encode M s recs HM Hs Hi).
  destruct (bool_decide (s ∈ recs)); [eauto|].
  destruct (Z.ltb_spec (Z.of_nat (length (encode_records recs))) SLOT_LIMIT);
    [eauto | lia].
Qed.

Lemma encode_slot_Some recs buf :
  encode_slot recs = Some buf ->
  buf = Some <$> (encode_records recs ++ [x00; x00]) /\
  3 <= Z.of_nat (length (encode_records recs)).
Proof.
  destruct recs as [|r recs]; [discriminate|].
  cbn [encode_slot]. intros [= <-]. split; [reflexivity|].
  rewrite length_encode_records_cons. lia.
Qed.

(** ** Which slot an operation touches *)

Lemma write_record_data t i buf q s len t' :
  write_record t i buf q s len = Ok t' ->
  exists b, data t' = <[Z.to_nat i := Some b]> (data t).
Proof.
  unfold write_record. intros H.
  destruct (store16 buf q len) as [b1| | |]; try discriminate.
  cbn [mbind outcome_bind] in H.
  destruct (strcpy b1 _ s) as [b2| | |]; try discriminate.
  cbn [mbind outcome_bind] in H.
  destruct (store16 b2 _ 0) as [b3| | |]; try discriminate.
  cbn [mbind outcome_bind] in H. injection H as <-.
  exists b3. reflexivity.
Qed.

Lemma insert_other_slots t s t' (j : nat) :
  representable s = true ->
  insert t s 0 = Ok t' ->
  j <> Z.to_nat (slot_index s) ->
  data t' !! j = data t !! j.
Proof.
  intros Hs Hins Hj. unfold insert in Hins. rewrite Z.eqb_refl in Hins.
  rewrite default_length in Hins by auto.
  replace (int16 (Z.of_nat (length s) + 1 - 1)) with (Z.of_nat (length s))
    in Hins by (apply representable_spec in Hs; wrap_lia).
  rewrite hash_whole in Hins. cbn [mbind outcome_bind] in Hins.
  destruct (slot_at (data t) (slot_index s)) as [[old|]| | |]; try discriminate;
    cbn [mbind outcome_bind] in Hins.
  - destruct (search t s _ (Some old)) as [sz| | |]; try discriminate.
    cbn [mbind outcome_bind] in Hins.
    destruct (sz =? 0); [injection Hins as <-; reflexivity|].
    destruct (new_char _) as [b| | |]; try discriminate.
    cbn [mbind outcome_bind] in Hins.
    destruct (memcpy b old _) as [b'| | |]; try discriminate.
    cbn [mbind outcome_bind] in Hins.
    destruct (write_record_data _ _ _ _ _ _ _ Hins) as [b3 ->].
    apply list_lookup_insert_ne. auto.
  - destruct (new_char _) as [b| | |]; try discriminate.
    cbn [mbind outcome_bind] in Hins.
    destruct (write_record_data _ _ _ _ _ _ _ Hins) as [b3 ->].
    apply list_lookup_insert_ne. auto.
Qed.

Lemma find_same_slot t u s :
  representable s = true ->
  data t !! Z.to_nat (slot_index s) = data u !! Z.to_nat (slot_index s) ->
  find t s 0 = find u s 0.
Proof.
  intros Hs Hsame. unfold find, search. rewrite Z.eqb_refl.
  rewrite default_length by auto.
  replace (int16 (Z.of_nat (length s) + 1 - 1)) with (Z.of_nat (length s))
    by (apply representable_spec in Hs; wrap_lia).
  rewrite hash_whole. cbn [mbind outcome_bind].
  unfold slot_at. rewrite Hsame. reflexivity.
Qed.

Lemma insert_explicit_length t s :
  representable s = true -> insert t s (strlen s) = insert t s 0.
Proof.
  intros Hs. apply representable_spec in Hs as [Hn Hl].
  unfold insert. rewrite Z.eqb_refl.
  destruct (Z.eqb_spec (strlen s) 0) as [Hz|Hz]; [reflexivity|].
  replace (int16 (strlen s)) with (strlen s)
    by (rewrite nul_free_strlen by auto; wrap_lia).
  reflexivity.
Qed.

(** ** The iterator on the layout *)

Ltac slot_lia := pose proof (eq_refl : SLOT_COUNT = 2048); lia.

Lemma slot_at_past d :
  slot_at d SLOT_COUNT = Fault (SlotIndexOutOfRange SLOT_COUNT).
Proof. reflexivity. Qed.

Lemma slot_at_lookup (M : list (list (list byte))) (k : nat) :
  length M = Z.to_nat SLOT_COUNT -> (k < Z.to_nat SLOT_COUNT)%nat ->
  exists recs, M !! k = Some recs /\
    slot_at (encode_slot <$> M) (Z.of_nat k) = Ok (encode_slot recs).
Proof.
  intros HM Hk. destruct (lookup_lt_is_Some_2 M k) as [recs Hrecs]; [lia|].
  exists recs. split; [exact Hrecs | apply slot_at_encode; auto].
Qed.

Lemma scan_result_step (M : list (list (list byte))) k r :
  M !! k = Some [] -> scan_result M (S k) r -> scan_result M k r.
Proof.
  intros Hk [[Hnil ->]|(j & x & recs & -> & Hj & Hrecs & Hcat)].
  - left. split; [|reflexivity].
    rewrite (drop_S _ _ _ Hk). exact Hnil.
  - right. exists j, x, recs. repeat split; auto.
    rewrite (drop_S _ _ _ Hk). exact Hcat.
Qed.

Lemma scan_result_here (M : list (list (list byte))) k x recs :
  (k < Z.to_nat SLOT_COUNT)%nat -> M !! k = Some (x :: recs) ->
  scan_result M k (Ok (Z.of_nat k)).
Proof.
  intros Hlt Hk. right. exists k, x, recs. repeat split; auto.
  rewrite (drop_S _ _ _ Hk). reflexivity.
Qed.

Lemma scan_result_past (M : list (list (list byte))) :
  length M = Z.to_nat SLOT_COUNT ->
  scan_result M (Z.to_nat SLOT_COUNT) (Fault (SlotIndexOutOfRange SLOT_COUNT)).
Proof.
  intros HM. left. split; [|reflexivity]. rewrite drop_ge by lia. reflexivity.
Qed.

Lemma int32_succ_slot (k : nat) :
  (k < Z.to_nat SLOT_COUNT)%nat -> int32 (Z.of_nat k + 1) = Z.of_nat (S k).
Proof. intros Hk. change (Z.to_nat SLOT_COUNT) with 2048%nat in Hk. wrap_lia. Qed.

Lemma incr_loop_scan (M : list (list (list byte))) :
  length M = Z.to_nat SLOT_COUNT ->
  forall n k fuel, (k + n = Z.to_nat SLOT_COUNT)%nat -> (n < fuel)%nat ->
  scan_result M k (incr_loop fuel (encode_slot <$> M) (Z.of_nat k)).
Proof.
  intros HM. induction n as [|n IH]; intros k fuel Hk Hfuel.
  - destruct fuel as [|fuel]; [slot_lia|]. cbn [incr_loop].
    replace (Z.of_nat k) with SLOT_COUNT by slot_lia.
    rewrite slot_at_past. cbn [mbind outcome_bind].
    replace k with (Z.to_nat SLOT_COUNT) by slot_lia. apply scan_result_past, HM.
  - destruct fuel as [|fuel]; [slot_lia|]. cbn [incr_loop].
    destruct (slot_at_lookup M k HM ltac:(slot_lia)) as (recs & Hrecs & ->).
    cbn [mbind outcome_bind].
    destruct recs as [|x recs]; cbn [encode_slot].
    + destruct (Z.ltb_spec (Z.of_nat k) SLOT_COUNT) as [_|Hge];
        [|slot_lia].
      rewrite int32_succ_slot by slot_lia.
      apply scan_result_step; [exact Hrecs|]. apply IH; slot_lia.
    + eapply scan_result_here; eauto. slot_lia.
Qed.

Lemma begin_loop_scan (M : list (list (list byte))) :
  length M = Z.to_nat SLOT_COUNT ->
  forall n k fuel, (k + n = Z.to_nat SLOT_COUNT)%nat -> (n < fuel)%nat ->
  scan_result M k (begin_loop fuel (encode_slot <$> M) (Z.of_nat k)).
Proof.
  intros HM. induction n as [|n IH]; intros k fuel Hk Hfuel.
  - destruct fuel as [|fuel]; [slot_lia|]. cbn [begin_loop].
    replace (Z.of_nat k) with SLOT_COUNT by slot_lia.
    rewrite slot_at_past. cbn [mbind outcome_bind].
    replace k with (Z.to_nat SLOT_COUNT) by slot_lia. apply scan_result_past, HM.
  - destruct fuel as [|fuel]; [slot_lia|]. cbn [begin_loop].
    destruct (slot_at_lookup M k HM ltac:(slot_lia)) as (recs & Hrecs & ->).
    cbn [mbind outcome_bind].
    destruct recs as [|x recs]; cbn [encode_slot].
    + rewrite int32_succ_slot by slot_lia.
      apply scan_result_step; [exact Hrecs|]. apply IH; slot_lia.
    + eapply scan_result_here; eauto. slot_lia.
Qed.

Lemma read_c_str_mid r : forall (pre post : list byte) fuel,
  nul_free r = true -> (length r < fuel)%nat ->
  read_c_str fuel (Some <$> (pre ++ r ++ x00 :: post)) (Z.of_nat (length pre))
  = Ok r.
Proof.
  induction r as [|c r IH]; intros pre post fuel Hr Hfuel.
  - destruct fuel as [|fuel]; [simpl in Hfuel; lia|].
    cbn [read_c_str app]. rewrite load8_mid by reflexivity. reflexivity.
  - apply nul_free_cons in Hr as [Hc Hr].
    destruct fuel as [|fuel]; [simpl in Hfuel; lia|].
    cbn [read_c_str app]. rewrite load8_mid by reflexivity.
    cbn [mbind outcome_bind]. apply byte_eqb_neq in Hc. rewrite Hc.
    replace (pre ++ c :: r ++ x00 :: post) with ((pre ++ [c]) ++ r ++ x00 :: post)
      by (rewrite <- app_assoc; reflexivity).
    replace (Z.of_nat (length pre) + 1) with (Z.of_nat (length (pre ++ [c])))
      by (rewrite length_app; simpl; lia).
    rewrite IH by (auto; simpl in Hfuel; lia). reflexivity.
Qed.

Lemma pointee_encode (M : list (list (list byte))) (j : nat) recs q :
  M !! j = Some recs -> recs <> [] ->
  pointee (encode_table M) {| slot := Z.of_nat j; p := q |}
  = Ok (Some <$> (encode_records recs ++ [x00; x00])).
Proof.
  intros Hj Hne. unfold pointee. cbn [slot encode_table data].
  rewrite Nat2Z.id, list_lookup_fmap, Hj.
  destruct recs; [congruence | reflexivity].
Qed.

Lemma iterator_eqb_inside t (j : nat) q :
  (j < Z.to_nat SLOT_COUNT)%nat ->
  iterator_eqb {| slot := Z.of_nat j; p := q |} (end_ t) = false.
Proof.
  intros Hj. unfold iterator_eqb, end_. cbn [slot p].
  destruct (Z.eqb_spec (Z.of_nat j) SLOT_COUNT); [slot_lia | reflexivity].
Qed.

(** One step of the traversal at the record [r] of slot [j]. *)
Lemma iterator_step (M : list (list (list byte))) (j : nat) pre r post :
  table_inv M -> M !! j = Some (pre ++ r :: post) ->
  let t := encode_table M in
  let it := {| slot := Z.of_nat j;
               p := Some (Z.of_nat (length (encode_records pre))) |} in
  iterator_deref t it = Ok (Some r) /\
  iterator_incr t it
  = match post with
    | _ :: _ =>
        Ok {| slot := Z.of_nat j;
              p := Some (Z.of_nat (length (encode_records (pre ++ [r])))) |}
    | [] =>
        slot ← incr_loop (S (Z.to_nat SLOT_COUNT)) (data t) (Z.of_nat (S j));
        if slot =? SLOT_COUNT then Ok {| slot := slot; p := None |}
        else
          s ← slot_at (data t) slot;
          Ok {| slot := slot;
                p := match s with Some _ => Some 0 | None => None end |}
    end.
Proof.
  intros HM Hj t it.
  pose proof (lookup_lt_Some _ _ _ Hj) as Hlt. rewrite (inv_length M HM) in Hlt.
  assert (Hrepr : forall x, x ∈ pre ++ r :: post -> representable x = true).
  { intros x Hx. eapply (inv_repr M HM); eauto. }
  assert (Hr : representable r = true).
  { apply Hrepr. apply elem_of_app. right. left. }
  apply representable_spec in Hr as [Hrn Hrl].
  assert (Hne : pre ++ r :: post <> []) by (destruct pre; discriminate).
  set (w := Z.of_nat (length r) + 1).
  assert (Hbytes : encode_records (pre ++ r :: post) ++ [x00; x00]
                   = encode_records pre ++ enc16 w ++ r ++ x00
                       :: (encode_records post ++ [x00; x00])).
  { rewrite encode_records_app, encode_records_cons. unfold encode_record.
    fold w. rewrite <- !app_assoc. reflexivity. }
  split.
  - subst t it. unfold iterator_deref. cbn [p].
    rewrite (pointee_encode M j _ (Some (Z.of_nat (length (encode_records pre)))) Hj Hne).
    cbn [mbind outcome_bind]. rewrite Hbytes.
    replace (encode_records pre ++ enc16 w ++ r ++ x00 :: (encode_records post ++ [x00; x00]))
      with ((encode_records pre ++ enc16 w) ++ r ++ x00 :: (encode_records post ++ [x00; x00]))
      by (rewrite <- !app_assoc; reflexivity).
    replace (Z.of_nat (length (encode_records pre)) + sizeof_length_type)
      with (Z.of_nat (length (encode_records pre ++ enc16 w)))
      by (rewrite length_app; unfold sizeof_length_type; simpl; lia).
    rewrite read_c_str_mid; [reflexivity | exact Hrn |].
    rewrite length_fmap, !length_app. simpl. lia.
  - subst t it. unfold iterator_incr. cbn [p slot].
    rewrite (pointee_encode M j _ (Some (Z.of_nat (length (encode_records pre)))) Hj Hne).
    cbn [mbind outcome_bind]. rewrite Hbytes.
    rewrite load16_mid by (auto; lia). cbn [mbind outcome_bind].
    assert (Hq : Z.of_nat (length (encode_records pre)) + (w + sizeof_length_type)
                 = Z.of_nat (length (encode_records (pre ++ [r])))).
    { rewrite encode_records_app, length_app, Nat2Z.inj_add.
      pose proof (length_encode_records_cons r []) as Hc.
      cbn [encode_records map concat length] in Hc.
      cbn [encode_records map concat]. unfold sizeof_length_type. lia. }
    rewrite Hq.
    replace (encode_records pre ++ enc16 w ++ r ++ x00 :: (encode_records post ++ [x00; x00]))
      with (encode_records (pre ++ [r]) ++ encode_records post ++ [x00; x00]).
    2:{ rewrite encode_records_app.
        change (encode_records [r]) with (encode_record r ++ []).
        unfold encode_record. fold w.
        rewrite app_nil_r, <- !app_assoc. reflexivity. }
    destruct post as [|r' post].
    + cbn [encode_records map concat app].
      rewrite (load16_mid _ [] 0) by (auto; lia).
      cbn [mbind outcome_bind]. rewrite Z.eqb_refl.
      rewrite int32_succ_slot by lia. reflexivity.
    + assert (Hr' : representable r' = true).
      { apply Hrepr. apply elem_of_app. right. right. left. }
      apply representable_spec in Hr' as [_ Hrl'].
      rewrite encode_records_cons. unfold encode_record.
      rewrite <- !app_assoc.
      rewrite load16_mid by (auto; lia). cbn [mbind outcome_bind].
      destruct (Z.eqb_spec (Z.of_nat (length r') + 1) 0); [lia|]. reflexivity.
Qed.

(** From the record [r] of slot [j], the loop yields [r], the records after
    it in the slot and the strings of the later slots, and then reads
    [data[SLOT_COUNT]]. *)
Lemma traverse_loop_encode (M : list (list (list byte))) :
  table_inv M ->
  forall fuel (j : nat) pre r post,
    M !! j = Some (pre ++ r :: post) ->
    (length (post ++ concat (drop (S j) M)) < fuel)%nat ->
    traverse_loop fuel (encode_table M)
      {| slot := Z.of_nat j;
         p := Some (Z.of_nat (length (encode_records pre))) |}
    = (Some <$> (r :: post ++ concat (drop (S j) M)),
       Fault (SlotIndexOutOfRange SLOT_COUNT)).
Proof.
  intros HM. induction fuel as [|fuel IH]; intros j pre r post Hj Hfuel;
    [lia|].
  pose proof (lookup_lt_Some _ _ _ Hj) as Hlt. rewrite (inv_length M HM) in Hlt.
  cbn [traverse_loop]. rewrite iterator_eqb_inside by auto.
  destruct (iterator_step M j pre r post HM Hj) as [-> ->].
  destruct post as [|r' post].
  - pose proof (incr_loop_scan M (inv_length M HM)
                  (Z.to_nat SLOT_COUNT - S j) (S j) (S (Z.to_nat SLOT_COUNT))
                  ltac:(lia) ltac:(lia)) as Hscan.
    cbn [encode_table data].
    destruct Hscan as [[Hnil ->]|(j' & x & recs & -> & Hj' & Hrecs & Hcat)].
    + cbn [mbind outcome_bind ending app]. rewrite Hnil. reflexivity.
    + cbn [mbind outcome_bind].
      destruct (Z.eqb_spec (Z.of_nat j') SLOT_COUNT); [slot_lia|].
      rewrite (slot_at_encode M j' _ (inv_length M HM) Hrecs).
      cbn [mbind outcome_bind encode_slot].
      specialize (IH j' [] x recs Hrecs).
      cbn [encode_records map concat length] in IH.
      change (Z.of_nat 0) with 0 in IH.
      fold (encode_table M). rewrite IH.
      * cbn [app]. rewrite Hcat. reflexivity.
      * cbn [app length] in Hfuel. rewrite Hcat in Hfuel.
        cbn [app length] in Hfuel. lia.
  - change (pre ++ r :: r' :: post) with (pre ++ [r] ++ r' :: post) in Hj.
    rewrite app_assoc in Hj.
    rewrite (IH j (pre ++ [r]) r' post Hj)
      by (cbn [app length] in Hfuel; lia).
    reflexivity.
Qed.

Lemma data_encode_table M : data (encode_table M) = encode_slot <$> M.
Proof. reflexivity. Qed.

Lemma traverse_encode (M : list (list (list byte))) fuel :
  table_inv M -> (length (concat M) < fuel)%nat ->
  traverse fuel (encode_table M)
  = (Some <$> concat M, Fault (SlotIndexOutOfRange SLOT_COUNT)).
Proof.
  intros HM Hfuel. unfold traverse, begin. rewrite data_encode_table.
  pose proof (begin_loop_scan M (inv_length M HM) (Z.to_nat SLOT_COUNT) 0
                (S (Z.to_nat SLOT_COUNT)) ltac:(lia) ltac:(lia)) as Hscan.
  change (Z.of_nat 0) with 0 in Hscan.
  destruct Hscan as [[Hnil ->]|(j & x & recs & -> & Hj & Hrecs & Hcat)].
  - cbn [mbind outcome_bind ending]. rewrite drop_0 in Hnil. rewrite Hnil.
    reflexivity.
  - cbn [mbind outcome_bind].
    rewrite (slot_at_encode M j _ (inv_length M HM) Hrecs).
    cbn [mbind outcome_bind encode_slot].
    rewrite drop_0 in Hcat.
    pose proof (traverse_loop_encode M HM fuel j [] x recs Hrecs) as Ht.
    cbn [encode_records map concat length] in Ht.
    change (Z.of_nat 0) with 0 in Ht.
    rewrite Ht.
    + rewrite Hcat. reflexivity.
    + rewrite Hcat in Hfuel. cbn [app length] in Hfuel. lia.
Qed.

(** ** Tables built by runs of [insert], seen from outside *)

Lemma find_reachable l t s :
  forallb representable l = true ->
  insert_all array_hash_new l = Ok t ->
  nul_free s = true ->
  find t s 0 = Ok (bool_decide (s ∈ l)).
Proof.
  intros Hl Hrun Hs. apply forallb_Forall in Hl.
  destruct (reachable_encode l t Hl Hrun) as (M & HM & -> & Hel).
  rewrite (find_encode M s HM Hs). f_equal. apply bool_decide_ext, Hel.
Qed.

Lemma size_reachable l t :
  forallb representable l = true ->
  insert_all array_hash_new l = Ok t ->
  size t = Z.of_nat (length (remove_dups l)).
Proof.
  intros Hl Hrun. apply forallb_Forall in Hl.
  destruct (reachable_encode l t Hl Hrun) as (M & HM & -> & Hel).
  apply size_encode; auto.
Qed.

Lemma stored_in_slot l t s :
  forallb representable l = true ->
  insert_all array_hash_new l = Ok t ->
  s ∈ l ->
  exists sl rs, data t !! Z.to_nat (slot_index s) = Some sl /\
    slot_records sl = Ok rs /\ record_of s ∈ rs.
Proof.
  intros Hl Hrun Hin. apply forallb_Forall in Hl.
  destruct (reachable_encode l t Hl Hrun) as (M & HM & -> & Hel).
  destruct (table_inv_lookup M s HM) as [recs Hi].
  exists (encode_slot recs), (record_of <$> recs). split; [|split].
  - cbn [encode_table data]. rewrite list_lookup_fmap, Hi. reflexivity.
  - apply slot_records_encode, Forall_forall.
    intros x Hx. eapply (inv_repr M HM); eauto.
  - apply list_elem_of_fmap_2.
    apply (table_inv_elem M s recs HM Hi), Hel, Hin.
Qed.

Lemma insert_present l t s :
  forallb representable l = true ->
  insert_all array_hash_new l = Ok t ->
  s ∈ l ->
  insert t s 0 = Ok t.
Proof.
  intros Hl Hrun Hin.
  pose proof (forallb_elem _ _ _ Hl Hin) as Hs.
  apply forallb_Forall in Hl.
  destruct (reachable_encode l t Hl Hrun) as (M & HM & -> & Hel).
  destruct (table_inv_lookup M s HM) as [recs Hi].
  rewrite (insert_encode M s recs HM Hs Hi).
  rewrite bool_decide_eq_true_2
    by (apply (table_inv_elem M s recs HM Hi), Hel, Hin).
  reflexivity.
Qed.

Lemma records_reachable l t :
  forallb representable l = true ->
  insert_all array_hash_new l = Ok t ->
  exists rs, table_records (data t) = Ok rs /\
    length rs = length (remove_dups l).
Proof.
  intros Hl Hrun. apply forallb_Forall in Hl.
  destruct (reachable_encode l t Hl Hrun) as (M & HM & -> & Hel).
  exists (record_of <$> concat M). split.
  - apply table_records_encode, table_inv_Forall, HM.
  - rewrite length_fmap. apply distinct_count; [apply (inv_nodup M HM) | auto].
Qed.

Lemma insert_all_room l :
  forallb representable l = true ->
  records_size (record_of <$> l) <= SLOT_LIMIT ->
  exists t, insert_all array_hash_new l = Ok t.
Proof.
  intros Hl Hroom. rewrite records_size_encode in Hroom.
  apply insert_all_succeeds; auto using forallb_Forall.
Qed.

(** * The properties of the specification *)

(** ** Membership *)

(** C1.  Take any sequence of inserts (default length argument) of strings
    without embedded zero byte whose length with the terminator fits the
    16-bit length field.  The inserts succeed whenever the records they
    store stay within 2^31 bytes, and on the table they produce [find]
    returns true for every string that was inserted and false for every
    other string. *)
Theorem find_membership (l : list (list byte)) (s : list byte) :
  forallb representable l = true ->
  nul_free s = true ->
  (records_size (record_of <$> l) <= SLOT_LIMIT ->
   exists t, insert_all array_hash_new l = Ok t) /\
  (forall t, insert_all array_hash_new l = Ok t ->
     (s ∈ l -> find t s 0 = Ok true) /\
     (s ∉ l -> find t s 0 = Ok false)).
Proof.
  intros Hl Hs. split; [apply insert_all_room; exact Hl|].
  intros t Hrun. rewrite (find_reachable l t s Hl Hrun Hs).
  split; intros Hin.
  - rewrite bool_decide_eq_true_2 by exact Hin. reflexivity.
  - rewrite bool_decide_eq_false_2 by exact Hin. reflexivity.
Qed.

Lemma find_membership_witness :
  exists t, insert_all array_hash_new example_strings = Ok t /\
    find t cat 0 = Ok true /\ find t bird 0 = Ok false.
Proof.
  destruct (find_membership example_strings cat eq_refl eq_refl) as [Hrun Hcat].
  destruct (find_membership example_strings bird eq_refl eq_refl) as [_ Hbird].
  destruct Hrun as [t Ht]; [vm_compute; discriminate|].
  exists t. split; [exact Ht|]. split.
  - apply (Hcat t Ht). apply (bool_decide_unpack _). vm_compute. exact I.
  - apply (Hbird t Ht). apply (bool_decide_unpack _). vm_compute. exact I.
Defined.

(** ** Iteration *)

(** C2, on the code.  The traversal
    [for (it = begin(); it != end(); ++it) yield *it] of a table built from
    representable strings yields every distinct inserted string exactly
    once, but it does not end at [end()]: the scan for the next non-NULL
    slot reads [data[SLOT_COUNT]], one past the slot array.  On the table
    with no insertions this happens inside [begin()], before any cursor
    exists. *)
Theorem traversal_yields_then_overruns (l : list (list byte)) (t : array_hash) :
  forallb representable l = true ->
  insert_all array_hash_new l = Ok t ->
  exists ys, ys ≡ₚ remove_dups l /\
    forall fuel, (length ys < fuel)%nat ->
      traverse fuel t
      = (Some <$> ys, Fault (SlotIndexOutOfRange SLOT_COUNT)).
Proof.
  intros Hl Hrun. apply forallb_Forall in Hl.
  destruct (reachable_encode l t Hl Hrun) as (M & HM & -> & Hel).
  exists (concat M). split.
  - apply NoDup_Permutation.
    + apply (inv_nodup M HM).
    + apply NoDup_remove_dups.
    + intros x. rewrite elem_of_remove_dups. apply Hel.
  - intros fuel Hfuel. apply traverse_encode; auto.
Qed.

Lemma traversal_yields_then_overruns_witness :
  traverse 1 array_hash_new = ([], Fault (SlotIndexOutOfRange SLOT_COUNT)) /\
  exists t ys,
    insert_all array_hash_new example_strings = Ok t /\
    ys ≡ₚ remove_dups example_strings /\
    traverse 4 t = (Some <$> ys, Fault (SlotIndexOutOfRange SLOT_COUNT)).
Proof.
  split.
  - destruct (traversal_yields_then_overruns [] array_hash_new eq_refl eq_refl)
      as (ys & Hperm & Hys).
    apply Permutation_nil_r in Hperm. subst ys. apply (Hys 1%nat). simpl. lia.
  - destruct (insert_all array_hash_new example_strings) as [t| | |] eqn:E;
      try (vm_compute in E; discriminate).
    destruct (traversal_yields_then_overruns example_strings t eq_refl E)
      as (ys & Hperm & Hys).
    exists t, ys. split; [reflexivity|]. split; [exact Hperm|].
    apply Hys. rewrite (Permutation_length Hperm). vm_compute. lia.
Defined.

(** ** Over-long strings *)

(** C3, the failing instance.  A string of 32767 bytes has encoded length
    32768, one more than the length field can hold; no length error is
    reported for it: [find] narrows the length to 16 bits and answers
    false.  For a string of 65536 bytes [insert] narrows the length to 0,
    allocates a record of length 1 and copies the string past the end of
    that buffer. *)
Lemma length_overflow_counterexample :
  LENGTH_MAX < strlen (long_string 32767) + 1 /\
  find array_hash_new (long_string 32767) 0 = Ok false /\
  LENGTH_MAX < strlen (long_string 65536) + 1 /\
  int16 (int16 (strlen (long_string 65536)) + 1) = 1 /\
  insert array_hash_new (long_string 65536) 0 = Fault BufferOutOfRange.
Proof.
  split; [vm_compute; reflexivity|]. split.
  - rewrite <- encode_table_new.
    rewrite (find_encode empty_strings _ table_inv_new)
      by (vm_compute; reflexivity).
    rewrite concat_empty_strings. reflexivity.
  - repeat split; vm_compute; reflexivity.
Qed.

(** C3, as the code has it.  Neither [find] nor [insert] compares the
    length with the range of the 16-bit field.  On a table built from
    representable strings [find] answers false for every string whose
    encoded length exceeds the maximum; a string whose encoded length is
    exactly the maximum is inserted (its slot holding fewer than 2^31
    bytes), found afterwards and counted. *)
Theorem length_boundary (l : list (list byte)) (t : array_hash) (s : list byte) :
  forallb representable l = true ->
  insert_all array_hash_new l = Ok t ->
  nul_free s = true ->
  (LENGTH_MAX < strlen s + 1 -> find t s 0 = Ok false) /\
  (strlen s + 1 = LENGTH_MAX ->
   (forall n, slot_bytes t (slot_index s) = Ok n -> n < SLOT_LIMIT) ->
   exists t', insert t s 0 = Ok t' /\ find t' s 0 = Ok true /\
              size t' = Z.of_nat (length (remove_dups (l ++ [s])))).
Proof.
  intros Hl Hrun Hn. rewrite nul_free_strlen by auto. split.
  - intros Hlong. rewrite (find_reachable l t s Hl Hrun Hn).
    rewrite bool_decide_eq_false_2; [reflexivity|].
    intros Hin. pose proof (forallb_elem _ _ _ Hl Hin) as Hs.
    apply representable_spec in Hs as [_ Hs]. unfold LENGTH_MAX in Hlong. lia.
  - intros Hmax Hroom.
    assert (Hs : representable s = true).
    { apply representable_spec. unfold LENGTH_MAX in Hmax. split; [auto|lia]. }
    destruct (insert_succeeds l t s Hl Hrun Hs Hroom) as (t' & Hins & Hrun').
    assert (Hl' : forallb representable (l ++ [s]) = true).
    { rewrite forallb_app, Hl. cbn. rewrite Hs. reflexivity. }
    exists t'. split; [exact Hins|]. split.
    + rewrite (find_reachable (l ++ [s]) t' s Hl' Hrun' Hn).
      rewrite bool_decide_eq_true_2; [reflexivity|].
      apply elem_of_app. right. apply list_elem_of_singleton. reflexivity.
    + apply size_reachable; auto.
Qed.

Lemma length_boundary_witness :
  find array_hash_new (long_string 32767) 0 = Ok false /\
  exists t', insert array_hash_new (long_string 32766) 0 = Ok t' /\
             find t' (long_string 32766) 0 = Ok true.
Proof.
  split.
  - apply (length_boundary [] array_hash_new (long_string 32767));
      [reflexivity | reflexivity | vm_compute; reflexivity | vm_compute; reflexivity].
  - destruct (length_boundary [] array_hash_new (long_string 32766))
      as [_ Hmax]; [reflexivity | reflexivity | vm_compute; reflexivity |].
    destruct Hmax as (t' & Hi & Hf & _).
    + vm_compute. reflexivity.
    + assert (Hb : slot_bytes array_hash_new (slot_index (long_string 32766)) = Ok 0)
        by (vm_compute; reflexivity).
      intros n Hn. rewrite Hb in Hn. injection Hn as <-. reflexivity.
    + exists t'. split; [exact Hi | exact Hf].
Defined.

(** ** Duplicates and the element count *)

(** C4.  Inserting a string that the table already holds changes nothing:
    [insert] returns the table it was given, so [size()] and every slot
    buffer are as before, and [find] answers true before and after. *)
Theorem insert_duplicate (l : list (list byte)) (t : array_hash) (s : list byte) :
  forallb representable l = true ->
  insert_all array_hash_new l = Ok t ->
  s ∈ l ->
  find t s 0 = Ok true /\
  exists t', insert t s 0 = Ok t' /\ size t' = size t /\ data t' = data t /\
             find t' s 0 = Ok true.
Proof.
  intros Hl Hrun Hin.
  pose proof (forallb_elem _ _ _ Hl Hin) as Hs.
  pose proof (proj1 (representable_spec s) Hs) as [Hn _].
  assert (Hfind : find t s 0 = Ok true).
  { rewrite (find_reachable l t s Hl Hrun Hn).
    rewrite bool_decide_eq_true_2 by exact Hin. reflexivity. }
  split; [exact Hfind|]. exists t.
  split; [apply (insert_present l t s Hl Hrun Hin)|]. auto.
Qed.

Lemma insert_duplicate_witness :
  exists t, insert_all array_hash_new example_strings = Ok t /\
    find t cat 0 = Ok true /\
    exists t', insert t cat 0 = Ok t' /\ size t' = size t /\ data t' = data t.
Proof.
  destruct (insert_all array_hash_new example_strings) as [t| | |] eqn:E;
    try (vm_compute in E; discriminate).
  exists t. split; [reflexivity|].
  destruct (insert_duplicate example_strings t cat)
    as (Hf & t' & Hi & Hsz & Hd & _);
    [reflexivity | exact E | apply (bool_decide_unpack _); vm_compute; exact I |].
  split; [exact Hf|]. exists t'. auto.
Defined.

(** C5.  At every point of a run of [insert] and [find] calls on the empty
    table, [size()] is the number of distinct strings inserted so far, and
    it is the number of records held by the slots, sentinels not counted. *)
Theorem size_counts_distinct (ops : list op) (k : nat) (t : array_hash) :
  forallb representable (inserted ops) = true ->
  run array_hash_new ops = Ok t ->
  exists tk rs,
    run array_hash_new (take k ops) = Ok tk /\
    size tk = Z.of_nat (length (remove_dups (inserted (take k ops)))) /\
    table_records (data tk) = Ok rs /\
    size tk = Z.of_nat (length rs).
Proof.
  intros Hops Hrun.
  rewrite <- (take_drop k ops) in Hrun, Hops.
  destruct (run_app _ _ _ _ Hrun) as (tk & Hk & _).
  rewrite inserted_app, forallb_app in Hops.
  apply andb_true_iff in Hops as [Hops _].
  pose proof (run_insert_all _ _ _ Hk) as Hins.
  destruct (records_reachable _ tk Hops Hins) as (rs & Hrs & Hlen).
  exists tk, rs. split; [exact Hk|].
  rewrite (size_reachable _ tk Hops Hins). rewrite Hlen. auto.
Qed.

Lemma size_counts_distinct_witness :
  exists t,
    run array_hash_new
      [OpInsert cat; OpFind dog; OpInsert car; OpInsert dog; OpInsert cat] = Ok t /\
    size t = 3.
Proof.
  pose (ops := [OpInsert cat; OpFind dog; OpInsert car; OpInsert dog; OpInsert cat]).
  destruct (run array_hash_new ops) as [t| | |] eqn:E;
    try (vm_compute in E; discriminate).
  destruct (size_counts_distinct ops 5 t eq_refl E) as (tk & rs & Hk & Hsz & _).
  exists tk. split; [exact Hk|]. rewrite Hsz. vm_compute. reflexivity.
Defined.

(** ** What [search] returns *)

(** C6, the failing instance.  On the empty table the slot "cat" hashes to
    is NULL; [search] called without a slot pointer answers -1 there, which
    is not the byte size (zero) of the records of that slot. *)
Lemma search_empty_slot_counterexample :
  exists j rs,
    hash cat 3 23 = Ok j /\
    data array_hash_new !! Z.to_nat j = Some None /\
    slot_records None = Ok rs /\
    search array_hash_new cat 4 None = Ok (-1) /\
    -1 <> records_size rs.
Proof.
  exists 674, []. repeat split; try (vm_compute; reflexivity).
  vm_compute. discriminate.
Qed.

(** C6, as the code has it.  Called as [find] and [insert] call it, on a
    table built from representable strings, [search] returns 0 exactly when
    the examined slot holds a record whose string is [s]; otherwise it
    returns the byte size of the records of the slot (as an [int], hence
    the size itself below 2^31), which is never 0.  Without a slot pointer
    it examines the slot [s] hashes to, and answers -1 when that slot is
    NULL. *)
Theorem search_result (l : list (list byte)) (t : array_hash) (s : list byte) :
  forallb representable l = true ->
  insert_all array_hash_new l = Ok t ->
  nul_free s = true ->
  let len := int16 (int16 (strlen s) + 1) in
  (forall i buf, data t !! i = Some (Some buf) ->
     exists rs, slot_records (Some buf) = Ok rs /\
       ((exists r, r ∈ rs /\ rec_string r = s) ->
          search t s len (Some buf) = Ok 0) /\
       ((forall r, r ∈ rs -> rec_string r <> s) ->
          search t s len (Some buf) = Ok (int32 (records_size rs)) /\
          int32 (records_size rs) <> 0 /\
          (records_size rs < SLOT_LIMIT ->
             int32 (records_size rs) = records_size rs))) /\
  (exists j, hash s (int16 (len - 1)) 23 = Ok j /\ 0 <= j < SLOT_COUNT /\
     (data t !! Z.to_nat j = Some None -> search t s len None = Ok (-1)) /\
     (forall buf, data t !! Z.to_nat j = Some (Some buf) ->
        search t s len None = search t s len (Some buf))).
Proof.
  intros Hl Hrun Hn len. apply forallb_Forall in Hl.
  destruct (reachable_encode l t Hl Hrun) as (M & HM & -> & Hel).
  split.
  - intros i buf Hi. cbn [encode_table data] in Hi.
    rewrite list_lookup_fmap in Hi.
    destruct (M !! i) as [recs|] eqn:Hrecs; [|discriminate].
    cbn in Hi. injection Hi as Hi.
    assert (Hrepr : Forall (fun r => representable r = true) recs).
    { apply Forall_forall. intros x Hx. eapply (inv_repr M HM); eauto. }
    destruct (encode_slot_Some recs buf Hi) as [-> Hsize].
    exists (record_of <$> recs). split; [|split].
    + rewrite <- Hi. apply slot_records_encode; auto.
    + intros (r & Hr & Hrs).
      apply list_elem_of_fmap in Hr as (x & -> & Hx).
      pose proof (proj1 (Forall_forall _ _) Hrepr x Hx) as Hxr.
      apply representable_spec in Hxr as [Hxn Hxl].
      rewrite rec_string_record_of in Hrs by auto. subst x.
      cbn [search]. rewrite search_slot_spec by auto.
      replace len with (Z.of_nat (length s) + 1)
        by (subst len; rewrite nul_free_strlen by auto; wrap_lia).
      rewrite found_in_elem, bool_decide_eq_true_2 by auto. reflexivity.
    + intros Hnone.
      assert (Hnot : s ∉ recs).
      { intros Hs. apply (Hnone (record_of s)).
        - apply list_elem_of_fmap_2. exact Hs.
        - apply rec_string_record_of. exact Hn. }
      cbn [search]. rewrite search_slot_spec by auto.
      rewrite found_in_absent by auto. rewrite records_size_encode.
      pose proof (inv_bytes M HM _ _ Hrecs) as Hb.
      split; [reflexivity|]. split; intros; wrap_lia.
  - subst len. rewrite int16_succ_pred, nul_free_strlen by auto.
    rewrite hash_prefix by wrap_lia.
    eexists. split; [reflexivity|]. split; [apply land_slot_range|].
    pose proof (land_slot_range (fold_left hash_step
       (take (Z.to_nat (int16 (Z.of_nat (length s)))) s) 23)) as Hj.
    set (j := Z.land _ _) in *.
    assert (Hslot : forall x, data (encode_table M) !! Z.to_nat j = Some x ->
              slot_at (data (encode_table M)) j = Ok x).
    { intros x Hx. unfold slot_at.
      destruct (Z.leb_spec 0 j); [|lia].
      destruct (Z.ltb_spec j SLOT_COUNT); [|lia].
      cbn [andb]. rewrite Hx. reflexivity. }
    split.
    + intros Hnull. unfold search.
      rewrite int16_succ_pred, hash_prefix by wrap_lia.
      cbn [mbind outcome_bind]. fold j. rewrite (Hslot _ Hnull). reflexivity.
    + intros buf Hbuf. unfold search.
      rewrite int16_succ_pred, hash_prefix by wrap_lia.
      cbn [mbind outcome_bind]. fold j. rewrite (Hslot _ Hbuf). reflexivity.
Qed.

Lemma search_result_witness :
  exists t buf,
    insert_all array_hash_new example_strings = Ok t /\
    data t !! 674%nat = Some (Some buf) /\
    search t cat 4 (Some buf) = Ok 0 /\
    search t cat 4 None = Ok 0 /\
    search t car 4 (Some buf) = Ok 6.
Proof.
  destruct (insert_all array_hash_new example_strings) as [t| | |] eqn:E;
    try (vm_compute in E; discriminate).
  destruct (data t !! 674%nat) as [[buf|]|] eqn:Eb;
    try (vm_compute in E; injection E as <-; vm_compute in Eb; discriminate).
  destruct (search_result example_strings t cat eq_refl E eq_refl) as [Hp Hn].
  destruct (search_result example_strings t car eq_refl E eq_refl) as [Hp' _].
  destruct (Hp _ _ Eb) as (rs & Hrs & Hfound & _).
  destruct (Hp' _ _ Eb) as (rs' & Hrs' & _ & Habsent).
  destruct Hn as (j & Hj & _ & _ & Hsame).
  vm_compute in Hj. injection Hj as <-.
  vm_compute in E. injection E as <-. vm_compute in Eb. injection Eb as <-.
  vm_compute in Hrs. injection Hrs as <-.
  vm_compute in Hrs'. injection Hrs' as <-.
  eexists. eexists. split; [reflexivity|]. split; [reflexivity|].
  split; [|split].
  - apply Hfound. eexists. split; [left|reflexivity].
  - change 4 with (int16 (int16 (strlen cat) + 1)).
    rewrite (Hsame _ eq_refl). apply Hfound.
    eexists. split; [left|reflexivity].
  - apply Habsent. intros r Hr.
    apply list_elem_of_singleton in Hr as ->. vm_compute. discriminate.
Defined.

(** ** The slot of a string *)

Lemma find_null_slot t s :
  representable s = true ->
  data t !! Z.to_nat (slot_index s) = Some None ->
  find t s 0 = Ok false.
Proof.
  intros Hs Hnull. unfold find, search. rewrite Z.eqb_refl.
  rewrite default_length by auto.
  replace (int16 (Z.of_nat (length s) + 1 - 1)) with (Z.of_nat (length s))
    by (apply representable_spec in Hs; wrap_lia).
  rewrite hash_whole. cbn [mbind outcome_bind].
  unfold slot_at. rewrite Hnull.
  pose proof (slot_index_range s) as Hr.
  destruct (Z.leb_spec 0 (slot_index s)); [|lia].
  destruct (Z.ltb_spec (slot_index s) SLOT_COUNT); [|lia].
  reflexivity.
Qed.

Lemma record_of_elem (s : list byte) (recs : list (list byte)) :
  s ∈ recs <-> record_of s ∈ record_of <$> recs.
Proof.
  split; [apply list_elem_of_fmap_2|].
  intros (y & Hy & Hin)%list_elem_of_fmap.
  apply (f_equal rec_bytes) in Hy. cbn [record_of rec_bytes] in Hy.
  apply app_inj_tail in Hy as [-> _]. exact Hin.
Qed.

Lemma find_in_slot l t s :
  forallb representable l = true ->
  insert_all array_hash_new l = Ok t ->
  representable s = true ->
  exists sl rs, data t !! Z.to_nat (slot_index s) = Some sl /\
    slot_records sl = Ok rs /\
    (s ∈ l <-> record_of s ∈ rs) /\
    find t s 0 = Ok (bool_decide (s ∈ rec_string <$> rs)).
Proof.
  intros Hl Hrun Hs. pose proof (proj1 (representable_spec s) Hs) as [Hn _].
  rewrite (find_reachable l t s Hl Hrun Hn).
  apply forallb_Forall in Hl.
  destruct (reachable_encode l t Hl Hrun) as (M & HM & -> & Hel).
  destruct (table_inv_lookup M s HM) as [recs Hi].
  assert (Hrecs : Forall (fun r => representable r = true) recs).
  { apply Forall_forall. intros x Hx. eapply (inv_repr M HM); eauto. }
  exists (encode_slot recs), (record_of <$> recs).
  split; [cbn [encode_table data]; rewrite list_lookup_fmap, Hi; reflexivity|].
  split; [apply slot_records_encode, Hrecs|].
  split.
  - rewrite <- record_of_elem, <- Hel. apply (table_inv_elem M s recs HM Hi).
  - rewrite (rec_string_record_of_all recs Hrecs). f_equal.
    apply bool_decide_ext. rewrite <- Hel.
    apply (table_inv_elem M s recs HM Hi).
Qed.

Lemma insert_then_find l t t' s :
  forallb representable l = true ->
  insert_all array_hash_new l = Ok t ->
  representable s = true ->
  insert t s 0 = Ok t' ->
  exists buf rs, data t' !! Z.to_nat (slot_index s) = Some (Some buf) /\
    slot_records (Some buf) = Ok rs /\ record_of s ∈ rs /\
    find t' s 0 = Ok true.
Proof.
  intros Hl Hrun Hs Hins.
  assert (Hl' : forallb representable (l ++ [s]) = true)
    by (rewrite forallb_app, Hl; cbn; rewrite Hs; reflexivity).
  assert (Hrun' : insert_all array_hash_new (l ++ [s]) = Ok t')
    by (rewrite insert_all_snoc, Hrun; exact Hins).
  assert (Hin : s ∈ l ++ [s]) by (apply elem_of_app; right; constructor).
  destruct (find_in_slot _ t' s Hl' Hrun' Hs) as (sl & rs & Hsl & Hrs & Hel & _).
  apply Hel in Hin. destruct sl as [buf|].
  - exists buf, rs. split; [exact Hsl|]. split; [exact Hrs|].
    split; [exact Hin|].
    pose proof (proj1 (representable_spec s) Hs) as [Hn _].
    rewrite (find_reachable _ t' s Hl' Hrun' Hn).
    rewrite bool_decide_eq_true_2; [reflexivity|].
    apply elem_of_app; right; constructor.
  - cbn in Hrs. injection Hrs as <-. apply elem_of_nil in Hin. contradiction.
Qed.

Lemma rem_land_slot h :
  Z.land h (SLOT_COUNT - 1) = Z.rem h SLOT_COUNT <->
  0 <= h \/ Z.land h (SLOT_COUNT - 1) = 0.
Proof.
  change (SLOT_COUNT - 1) with (Z.ones 11). rewrite Z.land_ones by lia.
  change (2 ^ 11) with 2048. change SLOT_COUNT with 2048.
  Z.to_euclidean_division_equations. lia.
Qed.

(** C7, the failing instance.  The running hash of "abcdefg" is negative.
    The index [hash] returns for it, and [insert] uses, is 362; the
    remainder [h % SLOT_COUNT], which the comment at the return statement
    of [hash] calls the same, is -1686 ([Z.rem] is the remainder of the
    division that truncates, the one of [%]). *)
Lemma slot_index_remainder_counterexample :
  fold_left hash_step abcdefg 23 = -758881942 /\
  hash abcdefg 7 23 = Ok 362 /\
  Z.rem (fold_left hash_step abcdefg 23) SLOT_COUNT = -1686 /\
  hash abcdefg 7 23 <> Ok (Z.rem (fold_left hash_step abcdefg 23) SLOT_COUNT) /\
  exists t buf,
    insert array_hash_new abcdefg 0 = Ok t /\
    data t !! 362%nat = Some (Some buf) /\
    find t abcdefg 0 = Ok true.
Proof.
  split; [vm_compute; reflexivity|]. split; [vm_compute; reflexivity|].
  split; [vm_compute; reflexivity|]. split; [vm_compute; discriminate|].
  destruct (insert array_hash_new abcdefg 0) as [t| | |] eqn:E;
    try (vm_compute in E; discriminate).
  vm_compute in E. injection E as <-.
  eexists _, _. split; [reflexivity|].
  split; vm_compute; reflexivity.
Qed.

(** C7, as the code has it.  The slot of a string is a function of its
    bytes alone.  The call [hash(str, length - 1)] that [insert] makes, and
    that [search] makes for [find], starts from h = 23, replaces h by
    h XOR ((h << 5) + (h >> 2) + b) (in 32-bit [int] arithmetic, b a
    [char]) for each byte b before the terminator, and returns
    h AND (SLOT_COUNT - 1).  That index lies in the slot array and is the
    non-negative remainder of h modulo SLOT_COUNT; it is the remainder
    [h % SLOT_COUNT] only when h is not negative or the index is 0.
    [insert] and [find] use that same slot: [insert] changes no other slot
    and leaves the string as a record of that slot, where [find] then finds
    it; [find] looks at no other slot, answers false when that slot is
    NULL, and on a table built by inserts answers whether the string is
    among the records of that slot. *)
Theorem slot_index_deterministic (s : list byte) :
  representable s = true ->
  hash s (int16 (int16 (int16 (strlen s) + 1) - 1)) 23 = Ok (slot_index s) /\
  slot_index s = Z.land (fold_left hash_step s 23) (SLOT_COUNT - 1) /\
  slot_index s = (fold_left hash_step s 23) mod SLOT_COUNT /\
  0 <= slot_index s < SLOT_COUNT /\
  (slot_index s = Z.rem (fold_left hash_step s 23) SLOT_COUNT <->
   0 <= fold_left hash_step s 23 \/ slot_index s = 0) /\
  (forall t t' (j : nat), insert t s 0 = Ok t' ->
     j <> Z.to_nat (slot_index s) -> data t' !! j = data t !! j) /\
  (forall l t t',
     forallb representable l = true ->
     insert_all array_hash_new l = Ok t ->
     insert t s 0 = Ok t' ->
     exists buf rs, data t' !! Z.to_nat (slot_index s) = Some (Some buf) /\
       slot_records (Some buf) = Ok rs /\ record_of s ∈ rs /\
       find t' s 0 = Ok true) /\
  (forall t u,
     data t !! Z.to_nat (slot_index s) = data u !! Z.to_nat (slot_index s) ->
     find t s 0 = find u s 0) /\
  (forall t, data t !! Z.to_nat (slot_index s) = Some None ->
     find t s 0 = Ok false) /\
  (forall l t,
     forallb representable l = true ->
     insert_all array_hash_new l = Ok t ->
     exists sl rs, data t !! Z.to_nat (slot_index s) = Some sl /\
       slot_records sl = Ok rs /\
       (s ∈ l <-> record_of s ∈ rs) /\
       find t s 0 = Ok (bool_decide (s ∈ rec_string <$> rs))).
Proof.
  intros Hs. pose proof (proj1 (representable_spec s) Hs) as [Hn Hl].
  split.
  { rewrite int16_succ_pred, nul_free_strlen by auto.
    replace (int16 (Z.of_nat (length s))) with (Z.of_nat (length s)) by wrap_lia.
    apply hash_whole. }
  split; [reflexivity|]. split.
  { unfold slot_index, hash_value. change (SLOT_COUNT - 1) with (Z.ones 11).
    rewrite Z.land_ones by lia. reflexivity. }
  split; [apply slot_index_range|].
  split; [apply rem_land_slot|].
  split; [intros t t' j Hins Hj; eapply insert_other_slots; eauto|].
  split; [intros l t t' Hrepr Hrun Hins; eapply insert_then_find; eauto|].
  split; [intros t u Hsame; apply find_same_slot; auto|].
  split; [intros t Hnull; apply find_null_slot; auto|].
  intros l t Hrepr Hrun. apply (find_in_slot l t s Hrepr Hrun Hs).
Qed.

Lemma slot_index_deterministic_witness :
  exists t buf rs,
    hash cat 3 23 = Ok 674 /\
    find array_hash_new cat 0 = Ok false /\
    insert array_hash_new cat 0 = Ok t /\
    data t !! 674%nat = Some (Some buf) /\
    slot_records (Some buf) = Ok rs /\ record_of cat ∈ rs /\
    find t cat 0 = Ok true.
Proof.
  destruct (insert array_hash_new cat 0) as [t| | |] eqn:E;
    try (vm_compute in E; discriminate).
  destruct (slot_index_deterministic cat eq_refl)
    as (Hh & _ & _ & _ & _ & _ & Hins & _ & Hnull & _).
  destruct (Hins [] array_hash_new t eq_refl eq_refl E)
    as (buf & rs & Hbuf & Hrs & Hrec & Hfind).
  exists t, buf, rs. split; [exact Hh|].
  split; [apply Hnull; reflexivity|].
  split; [reflexivity|]. split; [exact Hbuf|]. split; [exact Hrs|].
  split; [exact Hrec | exact Hfind].
Defined.

(** ** Slot-array reads of the iterator *)

(** C8, on the code.  [begin()] on the table with no insertions, and the
    advance past the only record of a table, both read [data[SLOT_COUNT]]:
    the loop of [begin()] has no bound, and the loop of [operator++] reads the
    slot before it compares the index with SLOT_COUNT. *)
Theorem iterator_reads_past_slots :
  begin array_hash_new = Fault (SlotIndexOutOfRange SLOT_COUNT) /\
  exists t it,
    insert array_hash_new cat 0 = Ok t /\
    begin t = Ok it /\
    iterator_incr t it = Fault (SlotIndexOutOfRange SLOT_COUNT).
Proof.
  split; [vm_compute; reflexivity|].
  destruct (insert array_hash_new cat 0) as [t| | |] eqn:E;
    try (vm_compute in E; discriminate).
  exists t, {| slot := 674; p := Some 0 |}.
  split; [reflexivity|].
  vm_compute in E. injection E as <-.
  split; vm_compute; reflexivity.
Qed.

(** ** The empty string *)

(** C9.  The empty string is stored as a record of length 1 holding only
    the terminator; once inserted it is found and counted, and a table it
    was never inserted into does not find it. *)
Theorem empty_string_stored (l : list (list byte)) (t : array_hash) :
  forallb representable l = true ->
  insert_all array_hash_new l = Ok t ->
  ([] ∈ l ->
     find t [] 0 = Ok true /\
     size t = Z.of_nat (length (remove_dups l)) /\
     exists sl rs, data t !! 23%nat = Some sl /\ slot_records sl = Ok rs /\
                   {| rec_length := 1; rec_bytes := [x00] |} ∈ rs) /\
  ([] ∉ l -> find t [] 0 = Ok false).
Proof.
  intros Hl Hrun. rewrite (find_reachable l t [] Hl Hrun eq_refl). split.
  - intros Hin. rewrite bool_decide_eq_true_2 by exact Hin.
    split; [reflexivity|]. split; [apply size_reachable; auto|].
    apply (stored_in_slot l t [] Hl Hrun Hin).
  - intros Hnot. rewrite bool_decide_eq_false_2 by exact Hnot. reflexivity.
Qed.

Lemma empty_string_stored_witness :
  exists t, insert_all array_hash_new [cat; []] = Ok t /\
    find t [] 0 = Ok true /\ size t = 2 /\
    exists t0, insert_all array_hash_new [cat] = Ok t0 /\ find t0 [] 0 = Ok false.
Proof.
  destruct (insert_all array_hash_new [cat; []]) as [t| | |] eqn:E;
    try (vm_compute in E; discriminate).
  destruct (insert_all array_hash_new [cat]) as [t0| | |] eqn:E0;
    try (vm_compute in E0; discriminate).
  exists t. split; [reflexivity|].
  destruct (empty_string_stored [cat; []] t eq_refl E) as [Hyes _].
  destruct Hyes as (Hf & Hsz & _);
    [apply (bool_decide_unpack _); vm_compute; exact I|].
  split; [exact Hf|]. split; [rewrite Hsz; vm_compute; reflexivity|].
  exists t0. split; [reflexivity|].
  destruct (empty_string_stored [cat] t0 eq_refl E0) as [_ Hno].
  apply Hno. apply (bool_decide_unpack _). vm_compute. exact I.
Defined.

(** ** The explicit length argument *)

(** C10, the failing instance.  [insert("cat", 2)] on the empty table
    appends a record whose length prefix is 3, not 1 + strlen("cat") = 4. *)
Lemma explicit_length_counterexample :
  exists t',
    insert array_hash_new cat 2 = Ok t' /\
    table_records (data t')
      = Ok [ {| rec_length := 3; rec_bytes := [x63; x61; x74] |} ] /\
    3 <> strlen cat + 1.
Proof.
  destruct (insert array_hash_new cat 2) as [t'| | |] eqn:E;
    try (vm_compute in E; discriminate).
  exists t'. split; [reflexivity|].
  vm_compute in E. injection E as <-.
  split; [vm_compute; reflexivity | vm_compute; discriminate].
Qed.

(** C10, as the code has it.  When the explicit length argument is the
    number of bytes of the string before its terminator (nonzero and
    representable), [insert] does what it does with the default argument:
    on a table built from representable strings that does not hold [s] yet,
    the records of the slot of [s] are the former ones followed by one
    whose prefix is 1 + strlen(s), the number of payload bytes stored. *)
Theorem explicit_length_record (l : list (list byte)) (t t' : array_hash)
    (s : list byte) :
  forallb representable l = true ->
  insert_all array_hash_new l = Ok t ->
  representable s = true ->
  strlen s <> 0 ->
  s ∉ l ->
  insert t s (strlen s) = Ok t' ->
  exists old new rs,
    data t !! Z.to_nat (slot_index s) = Some old /\
    data t' !! Z.to_nat (slot_index s) = Some new /\
    slot_records old = Ok rs /\
    slot_records new
      = Ok (rs ++ [ {| rec_length := strlen s + 1; rec_bytes := s ++ [x00] |} ]) /\
    strlen s + 1 = Z.of_nat (length (s ++ [x00])) /\
    insert_all array_hash_new (l ++ [s]) = Ok t'.
Proof.
  intros Hl Hrun Hs Hnz Hnot Hins.
  rewrite insert_explicit_length in Hins by auto.
  pose proof (proj1 (representable_spec s) Hs) as [Hn Hlen].
  rewrite nul_free_strlen by auto.
  assert (Hrun' : insert_all array_hash_new (l ++ [s]) = Ok t').
  { rewrite insert_all_snoc, Hrun. exact Hins. }
  apply forallb_Forall in Hl.
  destruct (reachable_encode l t Hl Hrun) as (M & HM & -> & Hel).
  destruct (table_inv_lookup M s HM) as [recs Hi].
  assert (Hrecs : s ∉ recs).
  { intros Hin. apply Hnot, Hel, (table_inv_elem M s recs HM Hi), Hin. }
  rewrite (insert_encode M s recs HM Hs Hi) in Hins.
  rewrite bool_decide_eq_false_2 in Hins by auto.
  destruct (Z.ltb_spec (Z.of_nat (length (encode_records recs))) SLOT_LIMIT)
    as [Hlt|Hge]; [|discriminate].
  injection Hins as <-.
  assert (Hrepr : Forall (fun r => representable r = true) recs).
  { apply Forall_forall. intros x Hx. eapply (inv_repr M HM); eauto. }
  exists (encode_slot recs), (encode_slot (recs ++ [s])), (record_of <$> recs).
  split; [cbn [encode_table data]; rewrite list_lookup_fmap, Hi; reflexivity|].
  split.
  { cbn [encode_table data]. rewrite list_lookup_fmap.
    rewrite list_lookup_insert_eq by (eapply lookup_lt_Some; eauto).
    reflexivity. }
  split; [apply slot_records_encode; auto|].
  split.
  { rewrite slot_records_encode.
    - rewrite fmap_app. reflexivity.
    - apply Forall_app. split; [auto|]. constructor; [auto|constructor]. }
  split; [rewrite length_app; simpl; lia | exact Hrun'].
Qed.

Lemma explicit_length_record_witness :
  exists t t' new,
    insert_all array_hash_new [car] = Ok t /\
    insert t cat 3 = Ok t' /\
    data t' !! 674%nat = Some new /\
    slot_records new
      = Ok [ {| rec_length := 4; rec_bytes := [x63; x61; x74; x00] |} ].
Proof.
  destruct (insert_all array_hash_new [car]) as [t| | |] eqn:E;
    try (vm_compute in E; discriminate).
  destruct (insert t cat 3) as [t'| | |] eqn:E';
    try (vm_compute in E; injection E as <-; vm_compute in E'; discriminate).
  destruct (explicit_length_record [car] t t' cat eq_refl E eq_refl)
    as (old & new & rs & Hold & Hnew & Hrs & Hrec & _ & _).
  - vm_compute. discriminate.
  - apply (bool_decide_unpack _). vm_compute. exact I.
  - exact E'.
  - exists t, t', new. split; [reflexivity|]. split; [exact E'|].
    split; [exact Hnew|]. rewrite Hrec.
    vm_compute in E. injection E as <-.
    vm_compute in Hold. injection Hold as <-.
    vm_compute in Hrs. injection Hrs as <-. reflexivity.
Defined.

Lemma buckets_lookup l (i : nat) :
  (i < Z.to_nat SLOT_COUNT)%nat -> buckets l !! i = Some (bucket i l).
Proof.
  intros Hi. unfold buckets. rewrite list_lookup_fmap.
  rewrite lookup_seq_lt by exact Hi. reflexivity.
Qed.

Lemma buckets_nil : buckets [] = empty_strings.
Proof. vm_compute. reflexivity. Qed.

Lemma length_buckets l : length (buckets l) = Z.to_nat SLOT_COUNT.
Proof. unfold buckets. rewrite length_fmap, length_seq. reflexivity. Qed.

Lemma bucket_snoc i l s :
  bucket i (l ++ [s])
  = bucket i l ++ (if decide (slot_index s = Z.of_nat i) then [s] else []).
Proof.
  unfold bucket. rewrite filter_app. reflexivity.
Qed.

Lemma elem_of_bucket i l s :
  s ∈ bucket i l <-> slot_index s = Z.of_nat i /\ s ∈ l.
Proof. unfold bucket. rewrite list_elem_of_filter. reflexivity. Qed.

Lemma buckets_snoc l s :
  <[Z.to_nat (slot_index s) := bucket (Z.to_nat (slot_index s)) l ++ [s]]>
    (buckets l)
  = buckets (l ++ [s]).
Proof.
  pose proof (slot_index_range s) as Hr.
  apply list_eq. intros i.
  destruct (decide (i < Z.to_nat SLOT_COUNT)%nat) as [Hi|Hi].
  - rewrite (buckets_lookup (l ++ [s]) i Hi), bucket_snoc.
    destruct (decide (i = Z.to_nat (slot_index s))) as [->|Hne].
    + rewrite list_lookup_insert_eq by (rewrite length_buckets; exact Hi).
      rewrite decide_True by lia. reflexivity.
    + rewrite list_lookup_insert_ne by auto.
      rewrite (buckets_lookup l i Hi).
      rewrite decide_False by lia. rewrite app_nil_r. reflexivity.
  - rewrite !lookup_ge_None_2; auto;
      rewrite ?length_insert, length_buckets; lia.
Qed.

Lemma insert_all_buckets l : forall acc t,
  table_inv (buckets acc) ->
  Forall (fun s => representable s = true) l ->
  insert_all (encode_table (buckets acc)) l = Ok t ->
  t = encode_table (buckets (dedup_onto acc l)) /\
  table_inv (buckets (dedup_onto acc l)).
Proof.
  induction l as [|s l IH]; intros acc t Hinv Hl Hrun.
  - injection Hrun as <-. auto.
  - inversion Hl as [|? ? Hs Hl']; subst.
    pose proof (slot_index_range s) as Hr.
    assert (Hi : buckets acc !! Z.to_nat (slot_index s)
                 = Some (bucket (Z.to_nat (slot_index s)) acc))
      by (apply buckets_lookup; lia).
    cbn [insert_all dedup_onto] in *.
    rewrite (insert_encode _ s _ Hinv Hs Hi) in Hrun.
    assert (Hel : s ∈ bucket (Z.to_nat (slot_index s)) acc <-> s ∈ acc).
    { rewrite elem_of_bucket. split; [tauto|]. intros; split; [lia|auto]. }
    destruct (decide (s ∈ acc)) as [Hin|Hnot].
    + rewrite bool_decide_eq_true_2 in Hrun by (apply Hel; exact Hin).
      rewrite bool_decide_eq_true_2 by exact Hin.
      cbn [mbind outcome_bind] in Hrun. apply IH; auto.
    + rewrite bool_decide_eq_false_2 in Hrun by (rewrite Hel; exact Hnot).
      rewrite bool_decide_eq_false_2 by exact Hnot.
      destruct (Z.ltb_spec
        (Z.of_nat (length (encode_records (bucket (Z.to_nat (slot_index s)) acc))))
        SLOT_LIMIT) as [Hlt|Hge]; [|discriminate].
      cbn [mbind outcome_bind] in Hrun.
      rewrite buckets_snoc in Hrun. apply IH; auto.
      rewrite <- buckets_snoc. apply table_inv_add; auto.
      rewrite Hel. exact Hnot.
Qed.

Lemma reachable_buckets l t :
  forallb representable l = true ->
  insert_all array_hash_new l = Ok t ->
  t = encode_table (buckets (first_occurrences l)) /\
  table_inv (buckets (first_occurrences l)).
Proof.
  intros Hl Hrun. apply forallb_Forall in Hl.
  rewrite <- encode_table_new, <- buckets_nil in Hrun.
  apply (insert_all_buckets l [] t); auto.
  rewrite buckets_nil. apply table_inv_new.
Qed.

(** * Further properties of the code *)

(** ** The order of a traversal *)

(** X1.  On a table built from representable strings, the traversal yields
    the strings slot by slot in increasing slot index and, inside a slot,
    in the order in which they were first inserted; reading the records of
    all slots back gives the same sequence, each string with its
    terminator and with length field 1 + strlen. *)
Theorem traversal_order (l : list (list byte)) (t : array_hash) :
  forallb representable l = true ->
  insert_all array_hash_new l = Ok t ->
  table_records (data t) = Ok (record_of <$> iteration_order l) /\
  forall fuel, (length (iteration_order l) < fuel)%nat ->
    fst (traverse fuel t) = Some <$> iteration_order l.
Proof.
  intros Hl Hrun.
  destruct (reachable_buckets l t Hl Hrun) as [-> Hinv]. split.
  - apply table_records_encode, table_inv_Forall, Hinv.
  - intros fuel Hfuel. unfold iteration_order in *.
    rewrite traverse_encode by auto. reflexivity.
Qed.

Lemma traversal_order_witness :
  exists t,
    insert_all array_hash_new [sw; cat; ba; sw] = Ok t /\
    slot_index sw = slot_index ba /\
    fst (traverse 4 t) = [Some sw; Some ba; Some cat].
Proof.
  destruct (insert_all array_hash_new [sw; cat; ba; sw]) as [t| | |] eqn:E;
    try (vm_compute in E; discriminate).
  exists t. split; [reflexivity|]. split; [reflexivity|].
  destruct (traversal_order [sw; cat; ba; sw] t eq_refl E) as [_ Hord].
  rewrite (Hord 4%nat) by (vm_compute; lia).
  vm_compute. reflexivity.
Defined.

(** ** The layout of the slots *)

Lemma NoDup_concat_lookup {A} (M : list (list A)) i recs :
  NoDup (concat M) -> M !! i = Some recs -> NoDup recs.
Proof.
  intros Hnd Hi. rewrite <- (take_drop_middle M i recs Hi) in Hnd.
  rewrite concat_app, concat_cons in Hnd.
  apply NoDup_app in Hnd as (_ & _ & Hnd).
  apply NoDup_app in Hnd as (Hnd & _). exact Hnd.
Qed.

(** X2.  Every allocated slot buffer of a table built from representable
    strings is exactly its records followed by the two zero bytes of the
    sentinel: it holds at least one record, has no spare and no unwritten
    cell, and each record is a length field 1 + strlen followed by a
    string that was inserted, hashes to that slot, and its terminator; no
    string occurs twice. *)
Theorem slot_layout (l : list (list byte)) (t : array_hash) (i : nat)
    (buf : buffer) :
  forallb representable l = true ->
  insert_all array_hash_new l = Ok t ->
  data t !! i = Some (Some buf) ->
  exists rs,
    slot_records (Some buf) = Ok rs /\ rs <> [] /\
    Z.of_nat (length buf) = records_size rs + sizeof_length_type /\
    Forall is_Some buf /\
    drop (length buf - 2) buf = [Some x00; Some x00] /\
    NoDup (rec_string <$> rs) /\
    Forall (fun r =>
      rec_bytes r = rec_string r ++ [x00] /\
      rec_length r = Z.of_nat (length (rec_bytes r)) /\
      representable (rec_string r) = true /\
      slot_index (rec_string r) = Z.of_nat i /\
      rec_string r ∈ l) rs.
Proof.
  intros Hl Hrun Hi. apply forallb_Forall in Hl.
  destruct (reachable_encode l t Hl Hrun) as (M & HM & -> & Hel).
  cbn [encode_table data] in Hi. rewrite list_lookup_fmap in Hi.
  destruct (M !! i) as [recs|] eqn:Hrecs; [|discriminate].
  cbn in Hi. injection Hi as Hi.
  assert (Hrepr : Forall (fun r => representable r = true) recs).
  { apply Forall_forall. intros x Hx. eapply (inv_repr M HM); eauto. }
  destruct (encode_slot_Some recs buf Hi) as [-> Hsize].
  exists (record_of <$> recs).
  split; [rewrite <- Hi; apply slot_records_encode; auto|].
  split; [destruct recs; [simpl in Hsize; lia | discriminate]|].
  split.
  { rewrite records_size_encode, length_fmap, length_app.
    unfold sizeof_length_type. simpl. lia. }
  split.
  { apply Forall_fmap, Forall_forall. intros x _. eexists. reflexivity. }
  split.
  { rewrite length_fmap, <- fmap_drop, length_app.
    rewrite drop_app_length'; [reflexivity | simpl; lia]. }
  split.
  { rewrite rec_string_record_of_all by auto.
    eapply NoDup_concat_lookup; [apply (inv_nodup M HM) | eauto]. }
  apply Forall_fmap, Forall_forall. intros s Hs. cbn [compose].
  pose proof (proj1 (Forall_forall _ _) Hrepr s Hs) as Hsr.
  pose proof (proj1 (representable_spec s) Hsr) as [Hn _].
  rewrite rec_string_record_of by auto.
  split; [reflexivity|]. split.
  { cbn [record_of rec_length rec_bytes]. rewrite length_app. simpl. lia. }
  split; [exact Hsr|]. split.
  - eapply (inv_slot M HM); eauto.
  - apply Hel, elem_of_concat. eauto.
Qed.

Lemma slot_layout_witness :
  exists t buf,
    insert_all array_hash_new [sw; cat; ba; sw] = Ok t /\
    data t !! 101%nat = Some (Some buf) /\
    length buf = 12%nat /\
    slot_records (Some buf)
      = Ok [ {| rec_length := 3; rec_bytes := [x73; x77; x00] |};
             {| rec_length := 3; rec_bytes := [x62; x61; x00] |} ].
Proof.
  destruct (insert_all array_hash_new [sw; cat; ba; sw]) as [t| | |] eqn:E;
    try (vm_compute in E; discriminate).
  destruct (data t !! 101%nat) as [[buf|]|] eqn:Eb;
    try (vm_compute in E; injection E as <-; vm_compute in Eb; discriminate).
  destruct (slot_layout [sw; cat; ba; sw] t 101 buf eq_refl E Eb) as (rs & Hrs & _ & Hlen & _).
  exists t, buf. split; [reflexivity|]. split; [exact Eb|].
  rewrite Hrs.
  vm_compute in E. injection E as <-. vm_compute in Eb. injection Eb as <-.
  vm_compute in Hrs. injection Hrs as <-.
  split; reflexivity.
Defined.

(** X3.  Slots are allocated on first use: the table always has SLOT_COUNT
    slots, and a slot is NULL exactly when no inserted string hashes to
    it. *)
Theorem null_slots (l : list (list byte)) (t : array_hash) (i : nat) :
  forallb representable l = true ->
  insert_all array_hash_new l = Ok t ->
  (i < Z.to_nat SLOT_COUNT)%nat ->
  length (data t) = Z.to_nat SLOT_COUNT /\
  (data t !! i = Some None <->
   forall s, s ∈ l -> slot_index s <> Z.of_nat i).
Proof.
  intros Hl Hrun Hi. apply forallb_Forall in Hl.
  destruct (reachable_encode l t Hl Hrun) as (M & HM & -> & Hel).
  cbn [encode_table data]. rewrite length_fmap.
  split; [apply (inv_length M HM)|].
  destruct (lookup_lt_is_Some_2 M i) as [recs Hrecs];
    [rewrite (inv_length M HM); exact Hi|].
  rewrite list_lookup_fmap, Hrecs. cbn [fmap option_fmap option_map]. split.
  - intros Hnull s Hs Hslot.
    destruct recs as [|r recs]; [|discriminate].
    apply Hel, elem_of_concat in Hs as (j & rs & Hj & Hs).
    pose proof (inv_slot M HM _ _ _ Hj Hs) as Hsj.
    assert (j = i) as -> by lia.
    rewrite Hrecs in Hj. injection Hj as <-. inversion Hs.
  - intros Hnone. destruct recs as [|r recs]; [reflexivity|]. exfalso.
    apply (Hnone r).
    + apply Hel, elem_of_concat. exists i, (r :: recs). split; [auto|left].
    + eapply (inv_slot M HM); [eauto|left].
Qed.

Lemma null_slots_witness :
  exists t,
    insert_all array_hash_new [sw; cat; ba; sw] = Ok t /\
    data t !! 100%nat = Some None /\ data t !! 101%nat <> Some None.
Proof.
  destruct (insert_all array_hash_new [sw; cat; ba; sw]) as [t| | |] eqn:E;
    try (vm_compute in E; discriminate).
  exists t. split; [reflexivity|].
  destruct (null_slots [sw; cat; ba; sw] t 100 eq_refl E) as [_ H100]; [vm_compute; lia|].
  destruct (null_slots [sw; cat; ba; sw] t 101 eq_refl E) as [_ H101]; [vm_compute; lia|].
  split.
  - apply H100. intros s Hs.
    repeat (apply elem_of_cons in Hs as [->|Hs]; [vm_compute; discriminate|]).
    inversion Hs.
  - intros Hnull. apply (proj1 H101 Hnull sw); [left | reflexivity].
Defined.

(** ** What [insert] does to its slot *)

(** X4.  Inserting a string the table does not hold adds one to [size()]
    and replaces the buffer of its slot by one that keeps the bytes of the
    former records in place and has the new record and a fresh sentinel
    behind them, with no room to spare; a NULL slot gets a buffer of
    exactly that record and the sentinel. *)
Theorem insert_appends (l : list (list byte)) (t t' : array_hash)
    (s : list byte) :
  forallb representable l = true ->
  insert_all array_hash_new l = Ok t ->
  representable s = true ->
  s ∉ l ->
  insert t s 0 = Ok t' ->
  size t' = size t + 1 /\
  exists new, data t' !! Z.to_nat (slot_index s) = Some (Some new) /\
    match data t !! Z.to_nat (slot_index s) with
    | Some (Some old) =>
        take (length old - 2) new = take (length old - 2) old /\
        drop (length old - 2) new = Some <$> (encode_record s ++ [x00; x00])
    | Some None => new = Some <$> (encode_record s ++ [x00; x00])
    | None => False
    end.
Proof.
  intros Hl Hrun Hs Hnot Hins. apply forallb_Forall in Hl.
  destruct (reachable_encode l t Hl Hrun) as (M & HM & -> & Hel).
  destruct (table_inv_lookup M s HM) as [recs Hi].
  assert (Hrecs : s ∉ recs).
  { intros Hin. apply Hnot, Hel, (table_inv_elem M s recs HM Hi), Hin. }
  rewrite (insert_encode M s recs HM Hs Hi) in Hins.
  rewrite bool_decide_eq_false_2 in Hins by auto.
  destruct (Z.ltb_spec (Z.of_nat (length (encode_records recs))) SLOT_LIMIT)
    as [Hlt|Hge]; [|discriminate].
  injection Hins as <-. split.
  - unfold size, encode_table. cbn [_size].
    rewrite (Permutation_length (concat_insert_app M _ recs s Hi)).
    cbn [length]. lia.
  - exists (Some <$> (encode_records recs ++ encode_record s ++ [x00; x00])).
    cbn [encode_table data]. split.
    + rewrite list_lookup_fmap.
      rewrite list_lookup_insert_eq by (eapply lookup_lt_Some; eauto).
      cbn [fmap option_fmap option_map]. rewrite encode_slot_snoc. reflexivity.
    + rewrite list_lookup_fmap, Hi. cbn [fmap option_fmap option_map].
      destruct recs as [|r recs]; [reflexivity|]. cbn [encode_slot].
      rewrite !length_fmap, length_app. cbn [length].
      replace (length (encode_records (r :: recs)) + 2 - 2)%nat
        with (length (encode_records (r :: recs))) by lia.
      rewrite <- !fmap_take, <- fmap_drop.
      rewrite !take_app_length, drop_app_length. auto.
Qed.

Lemma insert_appends_witness :
  exists t t' old new,
    insert_all array_hash_new [sw; cat] = Ok t /\
    insert t ba 0 = Ok t' /\
    data t !! 101%nat = Some (Some old) /\
    data t' !! 101%nat = Some (Some new) /\
    take 5 new = take 5 old /\ length new = 12%nat /\ size t' = 3.
Proof.
  destruct (insert_all array_hash_new [sw; cat]) as [t| | |] eqn:E;
    try (vm_compute in E; discriminate).
  destruct (insert t ba 0) as [t'| | |] eqn:E';
    try (vm_compute in E; injection E as <-; vm_compute in E'; discriminate).
  destruct (insert_appends [sw; cat] t t' ba eq_refl E eq_refl)
    as (Hsz & new & Hnew & Hold); [|exact E'|].
  { apply (bool_decide_unpack _). vm_compute. exact I. }
  change (Z.to_nat (slot_index ba)) with 101%nat in *.
  destruct (data t !! 101%nat) as [[old|]|] eqn:Eo;
    try (vm_compute in E; injection E as <-; vm_compute in Eo; discriminate).
  destruct Hold as [Htake Hdrop].
  assert (Hlen : length old = 7%nat).
  { vm_compute in E. injection E as <-. vm_compute in Eo. injection Eo as <-.
    reflexivity. }
  rewrite Hlen in Htake, Hdrop. cbn [Nat.sub] in Htake, Hdrop.
  exists t, t', old, new.
  split; [reflexivity|]. split; [exact E'|]. split; [exact Eo|].
  split; [exact Hnew|]. split; [exact Htake|]. split.
  - rewrite <- (take_drop 5 new), length_app, Htake, Hdrop.
    rewrite length_take, Hlen. reflexivity.
  - rewrite Hsz. vm_compute in E. injection E as <-. reflexivity.
Defined.

(** X5.  On a table built from representable strings, [insert] of a
    representable string never leaves its buffers and always ends: it
    either returns, or fails in [new], and it fails only for a new string
    whose slot already holds 2^31 bytes of records or more. *)
Theorem insert_fails_only_in_new (l : list (list byte)) (t : array_hash)
    (s : list byte) :
  forallb representable l = true ->
  insert_all array_hash_new l = Ok t ->
  representable s = true ->
  (exists t', insert t s 0 = Ok t') \/
  (insert t s 0 = BadAlloc /\ (s ∉ l) /\
   exists n, slot_bytes t (slot_index s) = Ok n /\ SLOT_LIMIT <= n).
Proof.
  intros Hl Hrun Hs. apply forallb_Forall in Hl.
  destruct (reachable_encode l t Hl Hrun) as (M & HM & -> & Hel).
  destruct (table_inv_lookup M s HM) as [recs Hi].
  rewrite (insert_encode M s recs HM Hs Hi).
  destruct (decide (s ∈ recs)) as [Hin|Hnot].
  - rewrite bool_decide_eq_true_2 by auto. left. eauto.
  - rewrite bool_decide_eq_false_2 by auto.
    destruct (Z.ltb_spec (Z.of_nat (length (encode_records recs))) SLOT_LIMIT)
      as [Hlt|Hge]; [left; eauto|].
    right. split; [reflexivity|]. split.
    + intros Hin. apply Hnot, (table_inv_elem M s recs HM Hi), Hel, Hin.
    + eexists. split; [apply (slot_bytes_encode M _ recs HM Hi) | exact Hge].
Qed.

Lemma insert_fails_only_in_new_witness :
  exists t t',
    insert_all array_hash_new example_strings = Ok t /\
    insert t bird 0 = Ok t'.
Proof.
  destruct (insert_all array_hash_new example_strings) as [t| | |] eqn:E;
    try (vm_compute in E; discriminate).
  destruct (insert_fails_only_in_new example_strings t bird eq_refl E eq_refl)
    as [[t' Ht']|(_ & _ & n & Hn & Hge)].
  - exists t, t'. split; [reflexivity | exact Ht'].
  - exfalso. vm_compute in E. injection E as <-.
    vm_compute in Hn. injection Hn as <-. vm_compute in Hge. apply Hge.
    reflexivity.
Defined.

(** ** Inserts into different slots *)

Lemma inserts_commute_encode M a b ra rb :
  table_inv M -> representable a = true -> representable b = true ->
  slot_index a <> slot_index b ->
  M !! Z.to_nat (slot_index a) = Some ra ->
  M !! Z.to_nat (slot_index b) = Some rb ->
  (ta ← insert (encode_table M) a 0; insert ta b 0)
  = (tb ← insert (encode_table M) b 0; insert tb a 0).
Proof.
  intros HM Ha Hb Hne Hia Hib.
  pose proof (slot_index_range a) as Hra.
  pose proof (slot_index_range b) as Hrb.
  assert (Hne' : Z.to_nat (slot_index a) <> Z.to_nat (slot_index b)) by lia.
  rewrite (insert_encode M a ra HM Ha Hia), (insert_encode M b rb HM Hb Hib).
  destruct (decide (a ∈ ra)) as [Hain|Hanot];
    [rewrite (bool_decide_eq_true_2 (a ∈ ra)) by auto
    |rewrite (bool_decide_eq_false_2 (a ∈ ra)) by auto];
  (destruct (decide (b ∈ rb)) as [Hbin|Hbnot];
    [rewrite (bool_decide_eq_true_2 (b ∈ rb)) by auto
    |rewrite (bool_decide_eq_false_2 (b ∈ rb)) by auto]);
  cbn [mbind outcome_bind].
  - rewrite (insert_encode M a ra HM Ha Hia), (insert_encode M b rb HM Hb Hib).
    rewrite !bool_decide_eq_true_2 by auto. reflexivity.
  - rewrite (insert_encode M b rb HM Hb Hib).
    rewrite (bool_decide_eq_false_2 (b ∈ rb)) by auto.
    destruct (Z.ltb_spec (Z.of_nat (length (encode_records rb))) SLOT_LIMIT)
      as [Hlt|Hge]; [|reflexivity].
    cbn [mbind outcome_bind].
    rewrite (insert_encode _ a ra (table_inv_add M b rb HM Hb Hib Hbnot Hlt) Ha)
      by (rewrite list_lookup_insert_ne by auto; exact Hia).
    rewrite bool_decide_eq_true_2 by auto. reflexivity.
  - rewrite (insert_encode M a ra HM Ha Hia).
    rewrite (bool_decide_eq_false_2 (a ∈ ra)) by auto.
    destruct (Z.ltb_spec (Z.of_nat (length (encode_records ra))) SLOT_LIMIT)
      as [Hlt|Hge]; [|reflexivity].
    cbn [mbind outcome_bind].
    rewrite (insert_encode _ b rb (table_inv_add M a ra HM Ha Hia Hanot Hlt) Hb)
      by (rewrite list_lookup_insert_ne by auto; exact Hib).
    rewrite bool_decide_eq_true_2 by auto. reflexivity.
  - destruct (Z.ltb_spec (Z.of_nat (length (encode_records ra))) SLOT_LIMIT)
      as [Hlta|Hgea];
    destruct (Z.ltb_spec (Z.of_nat (length (encode_records rb))) SLOT_LIMIT)
      as [Hltb|Hgeb]; cbn [mbind outcome_bind];
    try rewrite (insert_encode _ b rb (table_inv_add M a ra HM Ha Hia Hanot Hlta) Hb)
      by (rewrite list_lookup_insert_ne by auto; exact Hib);
    try rewrite (insert_encode _ a ra (table_inv_add M b rb HM Hb Hib Hbnot Hltb) Ha)
      by (rewrite list_lookup_insert_ne by auto; exact Hia);
    rewrite ?(bool_decide_eq_false_2 (a ∈ ra)), ?(bool_decide_eq_false_2 (b ∈ rb))
      by auto.
    + destruct (Z.ltb_spec (Z.of_nat (length (encode_records ra))) SLOT_LIMIT);
        [|lia].
      destruct (Z.ltb_spec (Z.of_nat (length (encode_records rb))) SLOT_LIMIT);
        [|lia].
      rewrite list_insert_insert_ne by auto. reflexivity.
    + destruct (Z.ltb_spec (Z.of_nat (length (encode_records rb))) SLOT_LIMIT);
        [lia|]. reflexivity.
    + destruct (Z.ltb_spec (Z.of_nat (length (encode_records ra))) SLOT_LIMIT);
        [lia|]. reflexivity.
    + reflexivity.
Qed.

Lemma insert_all_pair t a b :
  insert_all t [a; b] = (ta ← insert t a 0; insert ta b 0).
Proof.
  cbn [insert_all]. destruct (insert t a 0) as [ta| | |]; try reflexivity.
  cbn [mbind outcome_bind]. destruct (insert ta b 0); reflexivity.
Qed.

Lemma insert_all_app l1 : forall t l2,
  insert_all t (l1 ++ l2) = (t1 ← insert_all t l1; insert_all t1 l2).
Proof.
  induction l1 as [|s l1 IH]; intros t l2; [reflexivity|].
  cbn [app insert_all]. destruct (insert t s 0); try reflexivity.
  cbn [mbind outcome_bind]. apply IH.
Qed.

(** X6.  Two inserts of strings that hash to different slots commute: in
    either order they end the same way and, when they return, leave the
    same table, buffers and count alike. *)
Theorem inserts_commute (l : list (list byte)) (t : array_hash)
    (a b : list byte) :
  forallb representable l = true ->
  insert_all array_hash_new l = Ok t ->
  representable a = true ->
  representable b = true ->
  slot_index a <> slot_index b ->
  insert_all t [a; b] = insert_all t [b; a].
Proof.
  intros Hl Hrun Ha Hb Hne. apply forallb_Forall in Hl.
  destruct (reachable_encode l t Hl Hrun) as (M & HM & -> & Hel).
  destruct (table_inv_lookup M a HM) as [ra Hia].
  destruct (table_inv_lookup M b HM) as [rb Hib].
  rewrite !insert_all_pair.
  apply (inserts_commute_encode M a b ra rb HM Ha Hb Hne Hia Hib).
Qed.

Lemma inserts_commute_witness :
  exists t0 t,
    insert_all array_hash_new [sw] = Ok t0 /\
    insert_all t0 [cat; dog] = Ok t /\
    insert_all t0 [dog; cat] = Ok t.
Proof.
  destruct (insert_all_room [sw; cat; dog]) as [t Ht];
    [reflexivity | vm_compute; discriminate |].
  change [sw; cat; dog] with ([sw] ++ [cat; dog]) in Ht.
  rewrite insert_all_app in Ht.
  destruct (insert_all array_hash_new [sw]) as [t0| | |] eqn:E0;
    try discriminate.
  cbn [mbind outcome_bind] in Ht.
  exists t0, t. split; [reflexivity|]. split; [exact Ht|].
  rewrite <- (inserts_commute [sw] t0 cat dog eq_refl E0 eq_refl eq_refl);
    [exact Ht | vm_compute; discriminate].
Defined.

(** ** The length argument of [find] *)

Lemma found_in_length s len recs :
  len <> Z.of_nat (length s) + 1 -> found_in s len recs = false.
Proof.
  intros Hlen. induction recs as [|r recs IH]; [reflexivity|].
  unfold found_in in *. cbn [existsb]. rewrite IH, orb_false_r.
  destruct (decide (s = r)) as [->|Hne].
  - destruct (Z.eqb_spec (Z.of_nat (length r) + 1) len); [lia|reflexivity].
  - rewrite (bool_decide_eq_false_2 (s = r)) by auto. apply andb_false_r.
Qed.

Lemma strlen_range s : 0 <= strlen s <= Z.of_nat (length s).
Proof.
  unfold strlen. split; [lia|]. apply inj_le.
  induction s as [|c s IH]; [reflexivity|].
  cbn [c_str]. destruct (Byte.eqb c x00); cbn [length]; lia.
Qed.

(** X7.  A length argument shorter than the string does not make [find]
    look up the prefix of that length: on a table built from representable
    strings [find(str, n)] with 0 < n < strlen(str) returns false, whether
    or not the string or its prefix is stored. *)
Theorem find_short_length (l : list (list byte)) (t : array_hash)
    (s : list byte) (len : Z) :
  forallb representable l = true ->
  insert_all array_hash_new l = Ok t ->
  nul_free s = true ->
  0 < len < strlen s ->
  len < 32768 ->
  find t s len = Ok false.
Proof.
  intros Hl Hrun Hn Hlen Hmax. rewrite nul_free_strlen in Hlen by auto.
  apply forallb_Forall in Hl.
  destruct (reachable_encode l t Hl Hrun) as (M & HM & -> & Hel).
  unfold find, search.
  destruct (Z.eqb_spec len 0) as [Hz|_]; [lia|].
  replace (int16 (int16 (len + 1) - 1)) with len by wrap_lia.
  rewrite hash_prefix by lia.
  set (j := Z.land _ _).
  pose proof (land_slot_range (fold_left hash_step (take (Z.to_nat len) s) 23))
    as Hj. fold j in Hj.
  destruct (lookup_lt_is_Some_2 M (Z.to_nat j)) as [recs Hrecs].
  { rewrite (inv_length M HM). lia. }
  cbn [mbind outcome_bind encode_table data].
  rewrite <- (Z2Nat.id j) by lia.
  rewrite (slot_at_encode M _ recs (inv_length M HM) Hrecs).
  cbn [mbind outcome_bind].
  destruct recs as [|r recs]; [reflexivity|].
  assert (Hrepr : Forall (fun r => representable r = true) (r :: recs)).
  { apply Forall_forall. intros x Hx. eapply (inv_repr M HM); eauto. }
  cbn [encode_slot]. rewrite search_slot_spec by auto.
  rewrite found_in_length by wrap_lia.
  cbn [mbind outcome_bind]. do 2 f_equal.
  pose proof (inv_bytes M HM _ _ Hrecs) as Hb.
  pose proof (length_encode_records_cons r recs) as Hc.
  apply Z.eqb_neq. wrap_lia.
Qed.

Lemma find_short_length_witness :
  exists t, insert_all array_hash_new [cat; [x63; x61]] = Ok t /\
    find t cat 0 = Ok true /\ find t cat 3 = Ok true /\
    find t cat 2 = Ok false.
Proof.
  destruct (insert_all array_hash_new [cat; [x63; x61]]) as [t| | |] eqn:E;
    try (vm_compute in E; discriminate).
  exists t. split; [reflexivity|].
  pose proof (find_short_length [cat; [x63; x61]] t cat 2 eq_refl E eq_refl)
    as Hshort.
  split; [|split].
  - vm_compute in E. injection E as <-. vm_compute. reflexivity.
  - vm_compute in E. injection E as <-. vm_compute. reflexivity.
  - apply Hshort; vm_compute; split; reflexivity || reflexivity.
Defined.

(** ** The table just constructed *)

(** X8.  On the table the constructor makes, [size()] is 0 and [find]
    returns false for every argument, with or without embedded zero bytes,
    and for every length argument that does not exceed the bytes given; it
    reads no buffer. *)
Theorem find_on_new_table (s : list byte) (len : Z) :
  -32768 <= len <= Z.of_nat (length s) ->
  size array_hash_new = 0 /\ find array_hash_new s len = Ok false.
Proof.
  intros Hlen. split; [reflexivity|].
  pose proof (strlen_range s) as Hs.
  unfold find, search.
  set (n := if len =? 0 then int16 (strlen s) else len).
  assert (Hn : int16 (int16 (n + 1) - 1) <= Z.of_nat (length s)).
  { subst n. destruct (len =? 0); wrap_lia. }
  rewrite hash_prefix by exact Hn.
  set (j := Z.land _ _).
  pose proof (land_slot_range (fold_left hash_step
    (take (Z.to_nat (int16 (int16 (n + 1) - 1))) s) 23)) as Hj. fold j in Hj.
  cbn [mbind outcome_bind].
  rewrite <- encode_table_new. cbn [encode_table data].
  rewrite <- (Z2Nat.id j) by lia.
  rewrite (slot_at_encode empty_strings _ [] (inv_length _ table_inv_new)).
  - reflexivity.
  - unfold empty_strings. apply lookup_replicate. split; [reflexivity|].
    pose proof (eq_refl : SLOT_COUNT = 2048). lia.
Qed.

Lemma find_on_new_table_witness :
  find array_hash_new [x63; x00; x74] 0 = Ok false /\
  find array_hash_new cat 2 = Ok false.
Proof.
  split.
  - apply (find_on_new_table [x63; x00; x74] 0). simpl. lia.
  - apply (find_on_new_table cat 2). simpl. lia.
Defined.

(** ** The range of [hash] *)

(** X9.  Whatever the bytes, the length and the seed, the value [hash]
    returns is a valid index of the slot array, also when the running hash
    is negative; and [hash] returns whenever the length does not exceed the
    bytes given. *)
Theorem hash_in_range (s : list byte) (len seed : Z) :
  (forall j, hash s len seed = Ok j -> 0 <= j < SLOT_COUNT) /\
  (len <= Z.of_nat (length s) -> exists j, hash s len seed = Ok j).
Proof.
  split.
  - intros j Hj. unfold hash in Hj.
    destruct (hash_loop (Z.to_nat len) s 0 seed) as [h| | |]; try discriminate.
    cbn [mbind outcome_bind] in Hj. injection Hj as <-.
    apply land_slot_range.
  - intros Hlen. unfold hash.
    rewrite (hash_loop_prefix _ s 0 seed) by (simpl; lia).
    cbn [mbind outcome_bind]. eauto.
Qed.

Lemma hash_in_range_witness :
  hash [x61; x62; x63; x64; x65; x66; x67] 7 23 = Ok 362 /\
  fold_left hash_step [x61; x62; x63; x64; x65; x66; x67] 23 = -758881942.
Proof.
  destruct (hash_in_range [x61; x62; x63; x64; x65; x66; x67] 7 23)
    as [_ Hret].
  destruct Hret as [j Hj]; [simpl; lia|].
  split; [rewrite Hj; vm_compute in Hj; injection Hj as <-; reflexivity|].
  vm_compute. reflexivity.
Defined.

(** ** Arguments with an embedded zero byte *)

Lemma c_str_take s : take (length (c_str s)) s = c_str s.
Proof.
  induction s as [|c s IH]; [reflexivity|].
  cbn [c_str]. destruct (Byte.eqb c x00); [reflexivity|].
  cbn [length take]. rewrite IH. reflexivity.
Qed.

Lemma c_str_nul_free s : nul_free (c_str s) = true.
Proof.
  induction s as [|c s IH]; [reflexivity|].
  cbn [c_str]. destruct (Byte.eqb c x00) eqn:E; [reflexivity|].
  apply nul_free_cons. split; [apply byte_eqb_neq; exact E | exact IH].
Qed.

Lemma c_str_idemp s : c_str (c_str s) = c_str s.
Proof. apply nul_free_c_str, c_str_nul_free. Qed.

Lemma strlen_c_str s : strlen (c_str s) = strlen s.
Proof. unfold strlen. rewrite c_str_idemp. reflexivity. Qed.

Lemma hash_c_str s n seed :
  n <= strlen s -> hash (c_str s) n seed = hash s n seed.
Proof.
  intros Hn. pose proof (strlen_range s) as Hs. unfold strlen in *.
  unfold hash.
  rewrite (hash_loop_prefix _ s 0 seed) by (simpl; lia).
  rewrite (hash_loop_prefix _ (c_str s) 0 seed) by (simpl; lia).
  rewrite !drop_0. rewrite <- (c_str_take s), take_take.
  rewrite Nat.min_l by lia. reflexivity.
Qed.

Lemma strcpy_c_str s : forall (buf : buffer) q,
  strcpy buf q (c_str s) = strcpy buf q s.
Proof.
  induction s as [|c s IH]; intros buf q; [reflexivity|].
  cbn [c_str strcpy]. destruct (Byte.eqb c x00) eqn:E.
  - apply byte_eqb_eq in E as ->. cbn [strcpy].
    destruct (store8 buf q x00); reflexivity.
  - cbn [strcpy]. rewrite E.
    destruct (store8 buf q c); cbn [mbind outcome_bind]; auto.
Qed.

Lemma strcmp_c_str s : forall (buf : buffer) q,
  strcmp (c_str s) buf q = strcmp s buf q.
Proof.
  induction s as [|c s IH]; intros buf q; [reflexivity|].
  cbn [c_str]. destruct (Byte.eqb c x00) eqn:E.
  - apply byte_eqb_eq in E as ->. cbn [strcmp].
    destruct (load8 buf q) as [c2| | |]; cbn [mbind outcome_bind]; auto.
  - cbn [strcmp]. rewrite E.
    destruct (load8 buf q) as [c2| | |]; cbn [mbind outcome_bind]; auto.
    destruct (Byte.eqb c c2); [apply IH | reflexivity].
Qed.

Lemma search_loop_c_str s len buf fuel : forall q size w,
  search_loop fuel (c_str s) len buf q size w
  = search_loop fuel s len buf q size w.
Proof.
  induction fuel as [|fuel IH]; intros q size w; [reflexivity|].
  cbn [search_loop]. rewrite strcmp_c_str.
  destruct (w =? 0); [reflexivity|].
  destruct (if w =? len then strcmp s buf (q + sizeof_length_type) else Ok 1);
    cbn [mbind outcome_bind]; auto.
  destruct ((w =? len) && (a =? 0)); [reflexivity|].
  destruct (load16 buf (q + sizeof_length_type + w));
    cbn [mbind outcome_bind]; auto.
Qed.

Lemma search_c_str t s len p :
  int16 (len - 1) <= strlen s ->
  search t (c_str s) len p = search t s len p.
Proof.
  intros Hlen. unfold search, search_slot.
  rewrite hash_c_str by exact Hlen.
  destruct p as [buf|].
  - destruct (load16 buf 0); cbn [mbind outcome_bind]; auto.
    apply search_loop_c_str.
  - destruct (hash s (int16 (len - 1)) 23); cbn [mbind outcome_bind]; auto.
    destruct (slot_at (data t) a) as [[buf|]| | |];
      cbn [mbind outcome_bind]; auto.
    destruct (load16 buf 0); cbn [mbind outcome_bind]; auto.
    apply search_loop_c_str.
Qed.

Lemma bind_ext {A B} (m : outcome A) (f g : A -> outcome B) :
  (forall a, f a = g a) -> (m ≫= f) = (m ≫= g).
Proof. intros H. destruct m; cbn [mbind outcome_bind]; auto. Qed.

Lemma write_record_c_str t i buf q s len :
  write_record t i buf q (c_str s) len = write_record t i buf q s len.
Proof.
  unfold write_record. apply bind_ext. intros b.
  rewrite strcpy_c_str. reflexivity.
Qed.

(** X10.  [insert] and [find] see of their argument only the C string in
    front of its first zero byte: an argument with embedded zero bytes is
    treated, on every table, exactly as the string before the first of
    them. *)
Theorem embedded_nul_ignored (t : array_hash) (s : list byte) :
  insert t s 0 = insert t (c_str s) 0 /\ find t s 0 = find t (c_str s) 0.
Proof.
  pose proof (strlen_range s) as Hs.
  assert (Hlen : int16 (int16 (int16 (strlen s) + 1) - 1) <= strlen s)
    by wrap_lia.
  split; symmetry.
  - unfold insert. rewrite Z.eqb_refl, strlen_c_str.
    rewrite hash_c_str by exact Hlen.
    apply bind_ext. intros j. apply bind_ext. intros [old|].
    + rewrite search_c_str by exact Hlen.
      apply bind_ext. intros sz. destruct (sz =? 0); [reflexivity|].
      apply bind_ext. intros b. apply bind_ext. intros b'.
      apply write_record_c_str.
    + apply bind_ext. intros b. apply write_record_c_str.
  - unfold find. rewrite Z.eqb_refl, strlen_c_str.
    rewrite search_c_str by exact Hlen. reflexivity.
Qed.

Lemma embedded_nul_ignored_witness :
  exists t, insert array_hash_new [x63; x61; x74; x00; x64; x6f; x67] 0 = Ok t /\
    find t cat 0 = Ok true /\
    find t [x63; x61; x74; x00; x78] 0 = Ok true.
Proof.
  destruct (insert array_hash_new cat 0) as [t| | |] eqn:E;
    try (vm_compute in E; discriminate).
  assert (Hcat : find t cat 0 = Ok true).
  { vm_compute in E. injection E as <-. vm_compute. reflexivity. }
  exists t.
  destruct (embedded_nul_ignored array_hash_new
              [x63; x61; x74; x00; x64; x6f; x67]) as [Hi _].
  destruct (embedded_nul_ignored t [x63; x61; x74; x00; x78]) as [_ Hf].
  split; [rewrite Hi; exact E|].
  split; [exact Hcat | rewrite Hf; exact Hcat].
Defined.

(** ** [begin()] on any table *)

Lemma slot_at_Ok d k s :
  slot_at d k = Ok s -> 0 <= k < SLOT_COUNT /\ d !! Z.to_nat k = Some s.
Proof.
  unfold slot_at. intros H.
  destruct (Z.leb_spec 0 k); [|discriminate].
  destruct (Z.ltb_spec k SLOT_COUNT); [|discriminate].
  cbn [andb] in H. destruct (d !! Z.to_nat k); [|discriminate].
  injection H as ->. auto.
Qed.

Lemma begin_loop_found fuel : forall d k j,
  begin_loop fuel d k = Ok j ->
  k <= j < SLOT_COUNT /\ 0 <= k /\
  (exists buf, d !! Z.to_nat j = Some (Some buf)) /\
  (forall i, k <= i < j -> d !! Z.to_nat i = Some None).
Proof.
  induction fuel as [|fuel IH]; intros d k j H; [discriminate|].
  cbn [begin_loop] in H.
  destruct (slot_at d k) as [s| | |] eqn:Hs; try discriminate.
  apply slot_at_Ok in Hs as [Hk Hs]. cbn [mbind outcome_bind] in H.
  destruct s as [buf|].
  - injection H as <-. split; [lia|]. split; [lia|].
    split; [eauto|]. intros i Hi. lia.
  - replace (int32 (k + 1)) with (k + 1) in H
      by (pose proof (eq_refl : SLOT_COUNT = 2048); wrap_lia).
    destruct (IH d (k + 1) j H) as (Hj & _ & Hbuf & Hnull).
    split; [lia|]. split; [lia|]. split; [exact Hbuf|].
    intros i Hi. destruct (Z.eq_dec i k) as [->|Hne]; [exact Hs|].
    apply Hnull. lia.
Qed.

Lemma begin_loop_all_null d :
  (forall i, (i < Z.to_nat SLOT_COUNT)%nat -> d !! i = Some None) ->
  forall n k fuel, (k + n = Z.to_nat SLOT_COUNT)%nat -> (n < fuel)%nat ->
  begin_loop fuel d (Z.of_nat k) = Fault (SlotIndexOutOfRange SLOT_COUNT).
Proof.
  intros Hnull. induction n as [|n IH]; intros k fuel Hk Hfuel.
  - destruct fuel as [|fuel]; [lia|]. cbn [begin_loop].
    replace (Z.of_nat k) with SLOT_COUNT by slot_lia.
    rewrite slot_at_past. reflexivity.
  - destruct fuel as [|fuel]; [lia|]. cbn [begin_loop].
    unfold slot_at.
    destruct (Z.leb_spec 0 (Z.of_nat k)); [|lia].
    destruct (Z.ltb_spec (Z.of_nat k) SLOT_COUNT); [|slot_lia].
    cbn [andb]. rewrite Nat2Z.id, Hnull by lia.
    cbn [mbind outcome_bind]. rewrite int32_succ_slot by lia.
    apply IH; lia.
Qed.

(** X11.  Whatever the state of the table, a cursor that [begin()] returns
    stands at offset 0 of the lowest-numbered non-NULL slot and is never
    equal to [end()]; when every slot is NULL, [begin()] does not return
    [end()] either: it reads [data[SLOT_COUNT]]. *)
Theorem begin_first_slot (t : array_hash) :
  (forall it, begin t = Ok it ->
     0 <= slot it < SLOT_COUNT /\ p it = Some 0 /\
     (exists buf, data t !! Z.to_nat (slot it) = Some (Some buf)) /\
     (forall i, 0 <= i < slot it -> data t !! Z.to_nat i = Some None) /\
     iterator_eqb it (end_ t) = false) /\
  ((forall i, (i < Z.to_nat SLOT_COUNT)%nat -> data t !! i = Some None) ->
   begin t = Fault (SlotIndexOutOfRange SLOT_COUNT)).
Proof.
  split.
  - intros it Hit. unfold begin in Hit.
    destruct (begin_loop _ (data t) 0) as [j| | |] eqn:Hj; try discriminate.
    cbn [mbind outcome_bind] in Hit.
    destruct (begin_loop_found _ _ _ _ Hj) as (Hr & _ & [buf Hbuf] & Hnull).
    unfold slot_at in Hit.
    destruct (Z.leb_spec 0 j); [|lia].
    destruct (Z.ltb_spec j SLOT_COUNT); [|lia].
    cbn [andb] in Hit. rewrite Hbuf in Hit.
    cbn [mbind outcome_bind] in Hit. injection Hit as <-. cbn [slot p].
    split; [lia|]. split; [reflexivity|]. split; [eauto|].
    split; [exact Hnull|].
    unfold iterator_eqb, end_. cbn [slot p].
    destruct (Z.eqb_spec j SLOT_COUNT); [lia | reflexivity].
  - intros Hnull. unfold begin.
    rewrite (begin_loop_all_null (data t) Hnull (Z.to_nat SLOT_COUNT) 0)
      by lia.
    reflexivity.
Qed.

Lemma begin_first_slot_witness :
  exists t it,
    insert_all array_hash_new [cat; dog] = Ok t /\
    begin t = Ok it /\ slot it = 165 /\ p it = Some 0 /\
    iterator_eqb it (end_ t) = false /\
    begin array_hash_new = Fault (SlotIndexOutOfRange SLOT_COUNT).
Proof.
  destruct (insert_all array_hash_new [cat; dog]) as [t| | |] eqn:E;
    try (vm_compute in E; discriminate).
  destruct (begin t) as [it| | |] eqn:Eb;
    try (vm_compute in E; injection E as <-; vm_compute in Eb; discriminate).
  assert (Hslot : slot it = 165).
  { clear -E Eb. vm_compute in E. injection E as <-.
    vm_compute in Eb. injection Eb as <-. reflexivity. }
  exists t, it. split; [reflexivity|]. split; [exact Eb|].
  split; [exact Hslot|].
  destruct (begin_first_slot t) as [Hfirst _].
  destruct (Hfirst it Eb) as (_ & Hp & _ & _ & Hne).
  split; [exact Hp|]. split; [exact Hne|].
  destruct (begin_first_slot array_hash_new) as [_ Hnull].
  apply Hnull. intros i Hi. unfold array_hash_new. cbn [data].
  apply lookup_replicate. auto.
Defined.

(** ** The driver *)

Lemma indexof_cases ch :
  indexof ch =
  if (97 <=? byte_to_Z ch) && (byte_to_Z ch <=? 122) then byte_to_Z ch - 97
  else if Byte.eqb ch x27 then 26 else -1.
Proof. destruct ch; reflexivity. Qed.

Lemma byte_to_Z_inj a b : byte_to_Z a = byte_to_Z b -> a = b.
Proof.
  unfold byte_to_Z. intros H. apply N2Z.inj in H.
  apply (f_equal Byte.of_N) in H. rewrite !Byte.of_to_N in H. congruence.
Qed.

Lemma byte_to_Z_range b : 0 <= byte_to_Z b < 256.
Proof.
  unfold byte_to_Z. pose proof (Byte.to_N_bounded b). lia.
Qed.

Lemma indexof_letter ch : indexof ch <> -1 <-> letter ch.
Proof.
  rewrite indexof_cases. unfold letter.
  destruct (Z.leb_spec 97 (byte_to_Z ch)), (Z.leb_spec (byte_to_Z ch) 122);
    cbn [andb]; try (split; [intros _; left; lia | lia]).
  all: destruct (Byte.eqb ch x27) eqn:E;
    [apply byte_eqb_eq in E | apply byte_eqb_neq in E];
    split; try tauto; try lia; intros [?|?]; try lia; congruence.
Qed.

(** X12.  [indexof] returns -1 or an index of the 27-letter alphabet: an
    index for exactly the bytes ['a'..'z'] (0 to 25, in order) and the
    apostrophe (26), and never the same index for two different
    characters. *)
Theorem indexof_alphabet (a b : byte) :
  -1 <= indexof a < 27 /\
  (indexof a <> -1 <-> letter a) /\
  (97 <= byte_to_Z a <= 122 -> indexof a = byte_to_Z a - 97) /\
  (indexof a <> -1 -> indexof a = indexof b -> a = b).
Proof.
  split; [|split; [apply indexof_letter|split]].
  - rewrite indexof_cases. pose proof (byte_to_Z_range a).
    destruct (Z.leb_spec 97 (byte_to_Z a)), (Z.leb_spec (byte_to_Z a) 122);
      cbn [andb]; try lia; destruct (Byte.eqb a x27); lia.
  - intros H. rewrite indexof_cases.
    destruct (Z.leb_spec 97 (byte_to_Z a)), (Z.leb_spec (byte_to_Z a) 122);
      cbn [andb]; lia.
  - rewrite !indexof_cases. intros Ha Hab.
    destruct (Z.leb_spec 97 (byte_to_Z a)), (Z.leb_spec (byte_to_Z a) 122),
      (Z.leb_spec 97 (byte_to_Z b)), (Z.leb_spec (byte_to_Z b) 122);
      cbn [andb] in *;
      destruct (Byte.eqb a x27) eqn:Ea; destruct (Byte.eqb b x27) eqn:Eb;
      try lia; try (apply byte_to_Z_inj; lia);
      apply byte_eqb_eq in Ea, Eb; congruence.
Qed.

Lemma indexof_alphabet_witness :
  indexof x7a = 25 /\ indexof x27 = 26 /\ indexof x41 = -1 /\
  indexof xe1 = -1 /\ (indexof x7a = indexof x7a -> x7a = x7a).
Proof.
  destruct (indexof_alphabet x7a x7a) as (_ & _ & Hz & Hinj).
  split; [rewrite Hz by (vm_compute; split; discriminate); reflexivity|].
  split; [reflexivity|]. split; [reflexivity|]. split; [reflexivity|].
  apply Hinj. vm_compute. discriminate.
Defined.

Lemma byte_of_to_Z c : byte_of_Z (byte_to_Z c) = c.
Proof.
  apply byte_to_Z_inj. rewrite byte_to_of_Z.
  apply Z.mod_small, byte_to_Z_range.
Qed.

Lemma schar_ascii c : byte_to_Z c < 128 -> schar c = byte_to_Z c.
Proof.
  intros H. pose proof (byte_to_Z_range c). unfold schar. wrap_lia.
Qed.

Lemma trim_loop_acc s : forall acc,
  trim_loop s acc = (fun r => acc ++ r) <$> trim s.
Proof.
  unfold trim. induction s as [|c s IH]; intros acc.
  - cbn. rewrite app_nil_r. reflexivity.
  - cbn [trim_loop]. destruct (tolower (schar c)) as [c'|]; [|reflexivity].
    cbn [mbind option_bind]. cbv zeta.
    destruct (negb _).
    + rewrite (IH (acc ++ _)), (IH ([] ++ _)).
      destruct (trim_loop s []) as [r|]; [|reflexivity]. cbn.
      rewrite <- app_assoc. reflexivity.
    + apply IH.
Qed.

Lemma trim_cons c s :
  trim (c :: s) =
  c' ← tolower (schar c);
  r ← trim s;
  Some (if negb (indexof (byte_of_Z c') =? -1) then byte_of_Z c' :: r else r).
Proof.
  unfold trim at 1. cbn [trim_loop].
  destruct (tolower (schar c)) as [c'|]; [|reflexivity].
  cbn [mbind option_bind]. cbv zeta. rewrite trim_loop_acc.
  destruct (trim s) as [r|]; [|reflexivity]. cbn.
  destruct (negb _); reflexivity.
Qed.

Lemma trim_app a b :
  trim (a ++ b) = ra ← trim a; rb ← trim b; Some (ra ++ rb).
Proof.
  induction a as [|c a IH].
  - cbn [app]. change (trim []) with (Some (@nil byte)).
    cbn [mbind option_bind]. destruct (trim b); reflexivity.
  - rewrite <- app_comm_cons, !trim_cons, IH.
    destruct (tolower (schar c)) as [c'|]; [|reflexivity].
    cbn [mbind option_bind].
    destruct (trim a) as [ra|]; [|reflexivity]. cbn [mbind option_bind].
    destruct (trim b) as [rb|]; [|reflexivity]. cbn [mbind option_bind].
    destruct (negb _); reflexivity.
Qed.

Lemma trim_letters s : Forall letter s -> trim s = Some s.
Proof.
  induction 1 as [|c s Hc Hs IH]; [reflexivity|].
  rewrite trim_cons, IH.
  assert (Hlow : tolower (schar c) = Some (byte_to_Z c)).
  { assert (Hr : (97 <= byte_to_Z c <= 122) \/ byte_to_Z c = 39)
      by (destruct Hc as [?| ->]; [left; lia | right; reflexivity]).
    rewrite schar_ascii by lia. unfold tolower.
    destruct (Z.eqb_spec (byte_to_Z c) (-1)); [lia|].
    destruct (Z.leb_spec 0 (byte_to_Z c)); [|lia].
    destruct (Z.leb_spec (byte_to_Z c) 255); [|lia].
    destruct (Z.leb_spec 65 (byte_to_Z c)), (Z.leb_spec (byte_to_Z c) 90);
      cbn [andb]; try reflexivity; lia. }
  rewrite Hlow. cbn [mbind option_bind]. rewrite byte_of_to_Z.
  apply indexof_letter in Hc.
  destruct (Z.eqb_spec (indexof c) (-1)); [contradiction | reflexivity].
Qed.

Lemma trim_ascii s :
  Forall (fun c => byte_to_Z c < 128) s ->
  exists r, trim s = Some r /\ Forall letter r /\ (length r <= length s)%nat.
Proof.
  induction 1 as [|c s Hc Hs (r & Hr & Hlet & Hlen)].
  - exists []. split; [reflexivity|]. split; [constructor | reflexivity].
  - rewrite trim_cons, Hr. pose proof (byte_to_Z_range c).
    assert (Hlow : exists c', tolower (schar c) = Some c').
    { rewrite schar_ascii by lia. unfold tolower.
      destruct (Z.eqb_spec (byte_to_Z c) (-1)); [lia|].
      destruct (Z.leb_spec 0 (byte_to_Z c)); [|lia].
      destruct (Z.leb_spec (byte_to_Z c) 255); [|lia].
      cbn [andb]. eauto. }
    destruct Hlow as [c' ->]. cbn [mbind option_bind].
    destruct (Z.eqb_spec (indexof (byte_of_Z c')) (-1)) as [E|E]; cbn [negb].
    + exists r. split; [reflexivity|]. split; [exact Hlet|]. cbn. lia.
    + exists (byte_of_Z c' :: r). split; [reflexivity|].
      split; [constructor; [apply indexof_letter, E | exact Hlet]|].
      cbn. lia.
Qed.

Lemma trim_char c :
  (65 <= byte_to_Z c <= 90 -> trim [c] = Some [byte_of_Z (byte_to_Z c + 32)]) /\
  (byte_to_Z c < 65 \/ 90 < byte_to_Z c < 128 -> ~ letter c ->
   trim [c] = Some []).
Proof.
  unfold letter.
  split; [intros H | intros H Hn];
    destruct c; cbv [byte_to_Z Byte.to_N] in *; simpl Z.of_N in *;
    first [reflexivity | lia | exfalso; apply Hn; right; reflexivity].
Qed.

(** X13.  On a string of ASCII characters [trim] returns a string of
    lower-case letters and apostrophes only, no longer than its argument,
    which [trim] leaves as it is; a string of such characters is returned
    unchanged, and the result for a concatenation is the concatenation of
    the results.  Character by character: an upper-case letter gives its
    lower-case letter, and any other ASCII character that is neither a
    lower-case letter nor the apostrophe is dropped. *)
Theorem trim_keeps_letters (s s' : list byte) (c : byte) :
  Forall (fun c => byte_to_Z c < 128) s ->
  (exists r, trim s = Some r /\ Forall letter r /\
             (length r <= length s)%nat /\ trim r = Some r) /\
  (Forall letter s -> trim s = Some s) /\
  trim (s ++ s') = (r ← trim s; r' ← trim s'; Some (r ++ r')) /\
  (65 <= byte_to_Z c <= 90 -> trim [c] = Some [byte_of_Z (byte_to_Z c + 32)]) /\
  (byte_to_Z c < 65 \/ 90 < byte_to_Z c < 128 -> ~ letter c ->
   trim [c] = Some []).
Proof.
  intros Hs. split; [|split; [|split]].
  - destruct (trim_ascii s Hs) as (r & Hr & Hlet & Hlen).
    exists r. split; [exact Hr|]. split; [exact Hlet|].
    split; [exact Hlen|]. apply trim_letters, Hlet.
  - apply trim_letters.
  - apply trim_app.
  - apply trim_char.
Qed.

Lemma trim_keeps_letters_witness :
  trim dont_panic = Some [x64; x6f; x6e; x27; x74; x70; x61; x6e; x69; x63] /\
  trim (dont_panic ++ [x21]) =
    (r ← trim dont_panic; r' ← trim [x21]; Some (r ++ r')) /\
  trim [x50] = Some [x70].
Proof.
  assert (H : Forall (fun c => byte_to_Z c < 128) dont_panic).
  { apply Forall_forall. intros c Hc. unfold dont_panic in Hc.
    repeat (apply elem_of_cons in Hc as [->|Hc]; [reflexivity|]).
    apply elem_of_nil in Hc. contradiction. }
  destruct (trim_keeps_letters dont_panic [x21] x50 H)
    as (_ & _ & Happ & Hup & _).
  split; [reflexivity|]. split; [exact Happ|].
  apply Hup. vm_compute. split; discriminate.
Defined.

(** ** [compare] *)

Lemma length_concat_le {A} (M : list (list A)) (B : Z) :
  Forall (fun x => Z.of_nat (length x) <= B) M ->
  Z.of_nat (length (concat M)) <= Z.of_nat (length M) * B.
Proof.
  induction 1 as [|x M Hx HM IH]; [simpl; lia|].
  rewrite concat_cons, length_app. cbn [length]. lia.
Qed.

Lemma count_bound M : table_inv M -> Z.of_nat (length (concat M)) < 2 ^ 64.
Proof.
  intros HM.
  pose proof (length_concat_le M (SLOT_LIMIT + 32770)) as H.
  rewrite (inv_length M HM) in H.
  assert (HB : Forall (fun x => Z.of_nat (length x) <= SLOT_LIMIT + 32770) M).
  { apply Forall_lookup_2. intros i recs Hi.
    pose proof (inv_bytes M HM i recs Hi).
    pose proof (length_encode_records_ge recs). lia. }
  specialize (H HB). pose proof (eq_refl : SLOT_COUNT = 2048).
  unfold SLOT_LIMIT in *. lia.
Qed.

Lemma compare_from_spec l t s0 rest :
  forallb representable l = true ->
  insert_all array_hash_new l = Ok t ->
  forallb nul_free rest = true ->
  compare_from t s0 rest =
  Ok (if bool_decide (Forall (fun x => x ∈ l) rest)
      then size_t (Z.of_nat (length s0)) =? size t else false).
Proof.
  intros Hl Hrun. induction rest as [|x rest IH]; intros Hnf.
  - cbn [compare_from]. rewrite bool_decide_eq_true_2 by constructor.
    reflexivity.
  - cbn [forallb] in Hnf. apply andb_prop in Hnf as [Hx Hrest].
    cbn [compare_from]. rewrite (find_reachable l t x Hl Hrun Hx).
    cbn [mbind outcome_bind].
    destruct (decide (x ∈ l)) as [Hin|Hout].
    + rewrite (bool_decide_eq_true_2 _ Hin). cbn [Bool.eqb].
      rewrite (IH Hrest). f_equal.
      destruct (decide (Forall (fun x => x ∈ l) rest)) as [Hall|Hnot].
      * rewrite !bool_decide_eq_true_2 by (try constructor; auto).
        reflexivity.
      * rewrite !bool_decide_eq_false_2; auto.
        intros Hc. apply Hnot. inversion Hc; auto.
    + rewrite (bool_decide_eq_false_2 _ Hout). cbn [Bool.eqb].
      rewrite bool_decide_eq_false_2; [reflexivity|].
      intros Hc. apply Hout. inversion Hc; auto.
Qed.

(** X14.  On the table built by inserting the strings of [l], and for a set
    [s] of strings (without embedded zero byte, listed without repetition),
    [compare] returns, and returns true exactly when the strings of the set
    are the strings inserted. *)
Theorem compare_same_strings (l : list (list byte)) (t : array_hash)
    (s : list (list byte)) :
  forallb representable l = true ->
  insert_all array_hash_new l = Ok t ->
  NoDup s ->
  forallb nul_free s = true ->
  exists b, compare t s = Ok b /\ (b = true <-> forall x, x ∈ s <-> x ∈ l).
Proof.
  intros Hl Hrun Hnd Hnf. unfold compare.
  rewrite (compare_from_spec l t s s Hl Hrun Hnf).
  eexists. split; [reflexivity|].
  destruct (decide (Forall (fun x => x ∈ l) s)) as [Hall|Hnot].
  - rewrite (bool_decide_eq_true_2 _ Hall).
    rewrite (size_reachable l t Hl Hrun).
    assert (Hsub : s ⊆+ remove_dups l).
    { apply NoDup_submseteq; [exact Hnd|]. intros x Hx.
      apply elem_of_remove_dups. rewrite Forall_forall in Hall. auto. }
    pose proof (submseteq_length _ _ Hsub) as Hlen.
    assert (Hbound : Z.of_nat (length (remove_dups l)) < 2 ^ 64).
    { pose proof Hl as Hl'. apply forallb_Forall in Hl'.
      destruct (reachable_encode l t Hl' Hrun) as (M & HM & -> & Hel).
      rewrite <- (distinct_count M l (inv_nodup M HM) Hel).
      apply count_bound, HM. }
    unfold size_t. rewrite Z.mod_small by lia.
    rewrite Z.eqb_eq. split.
    + intros Heq x.
      assert (Hperm : s ≡ₚ remove_dups l)
        by (apply submseteq_length_Permutation; [exact Hsub | lia]).
      rewrite Hperm. apply elem_of_remove_dups.
    + intros Hel. f_equal. apply Permutation_length, NoDup_Permutation.
      * exact Hnd.
      * apply NoDup_remove_dups.
      * intros x. rewrite elem_of_remove_dups. apply Hel.
  - rewrite (bool_decide_eq_false_2 _ Hnot). split; [discriminate|].
    intros Hel. exfalso. apply Hnot, Forall_forall. intros x Hx.
    apply Hel, Hx.
Qed.

Lemma compare_same_strings_witness :
  exists t,
    insert_all array_hash_new example_strings = Ok t /\
    compare t [car; cat; dog] = Ok true /\
    compare t [car; cat] = Ok false.
Proof.
  destruct (insert_all array_hash_new example_strings) as [t| | |] eqn:E;
    try (vm_compute in E; discriminate).
  exists t. split; [reflexivity|].
  assert (Hnd : NoDup [car; cat; dog]).
  { apply (bool_decide_unpack _). vm_compute. exact I. }
  destruct (compare_same_strings example_strings t [car; cat; dog]
              eq_refl E Hnd eq_refl) as (b & Hb & Hiff).
  split.
  - rewrite Hb. f_equal. apply Hiff. intros x. unfold example_strings.
    rewrite !elem_of_cons, !elem_of_nil. tauto.
  - clear Hb Hiff. vm_compute in E. injection E as <-. vm_compute.
    reflexivity.
Defined.
